(** * svgUtils: a shallow embedding of [src/utils/svgUtils.js]

    The module reads geometry, style and gradient data off SVG elements.
    Its five functions are embedded below next to the pieces of the
    JavaScript runtime they call ([String.prototype.trim], [split],
    [Number], [parseFloat], property lookup on object literals, ...).

    Conventions of the embedding:
    - a JavaScript string is a [string] whose characters are code units
      in the range 0..255; white space and line terminators are the
      members of the ECMAScript classes that fall in that range;
    - a JavaScript number is an IEEE-754 binary64 value, a [spec_float]
      of the standard library with precision 53 and maximal exponent 1024;
    - an element is a tag name, an attribute map and an ordered list of
      children; the owning document is passed explicitly as its root;
    - a plain object used as a dictionary is a [gmap string _];
    - a call that can raise carries its outcome in [completion]. *)

From Stdlib Require Import ZArith Ascii String SpecFloat.
From stdpp Require Import base option list gmap strings.

Local Open Scope string_scope.
Local Open Scope list_scope.

(** ** Characters and strings of the runtime *)

Module JS.

Definition code (c : ascii) : N := N_of_ascii c.

(** WhiteSpace and LineTerminator code points below 256:
    TAB, LF, VT, FF, CR, SP and NBSP. *)
Definition is_ws (c : ascii) : bool :=
  let n := code c in
  ((9 <=? n) && (n <=? 13))%N || (n =? 32)%N || (n =? 160)%N.

(** LineTerminator code points below 256: LF and CR. *)
Definition is_line_terminator (c : ascii) : bool :=
  let n := code c in (n =? 10)%N || (n =? 13)%N.

Definition lower_char (c : ascii) : ascii :=
  let n := code c in
  if ((65 <=? n) && (n <=? 90))%N
     || ((192 <=? n) && (n <=? 222) && negb (n =? 215))%N
  then ascii_of_N (n + 32) else c.

Fixpoint toLowerCase (s : string) : string :=
  match s with
  | "" => ""
  | String c s' => String (lower_char c) (toLowerCase s')
  end.

Fixpoint trimStart (s : string) : string :=
  match s with
  | "" => ""
  | String c s' => if is_ws c then trimStart s' else s
  end.

Fixpoint trimEnd (s : string) : string :=
  match s with
  | "" => ""
  | String c s' =>
      match trimEnd s' with
      | "" => if is_ws c then "" else String c ""
      | r => String c r
      end
  end.

Definition trim (s : string) : string := trimEnd (trimStart s).

(** Prepend a character to the first piece of a split in progress. *)
Definition push_hd (c : ascii) (pieces : list string) : list string :=
  match pieces with
  | [] => [String c ""]
  | p :: ps => String c p :: ps
  end.

(** [s.split(sep)] for a one-character separator. *)
Fixpoint split (sep : ascii) (s : string) : list string :=
  match s with
  | "" => [""]
  | String c s' =>
      if Ascii.eqb c sep then "" :: split sep s'
      else push_hd c (split sep s')
  end.

(** [s.split(/\s+/)]: [in_run] tells that the previous character was
    white space, so that a run of separators closes one piece only. *)
Fixpoint split_ws_from (in_run : bool) (s : string) : list string :=
  match s with
  | "" => [""]
  | String c s' =>
      if is_ws c then
        if in_run then split_ws_from true s'
        else "" :: split_ws_from true s'
      else push_hd c (split_ws_from false s')
  end.

Definition split_ws (s : string) : list string := split_ws_from false s.

Definition startsWith (s p : string) : bool := String.prefix p s.

Fixpoint drop (n : nat) (s : string) : string :=
  match n, s with
  | O, _ => s
  | S n', String _ s' => drop n' s'
  | S _, "" => ""
  end.

(** [s.replace(pat, "")] for a string pattern: the first occurrence of
    [pat] is removed, the rest is kept. *)
Fixpoint remove_first (pat s : string) : string :=
  if String.prefix pat s then drop (String.length pat) s
  else match s with
       | "" => ""
       | String c s' => String c (remove_first pat s')
       end.

End JS.

(** ** Numbers of the runtime *)

Module Num.

Definition prec : Z := 53.
Definition emax : Z := 1024.

Abbreviation number := spec_float.

Definition NaN : number := S754_nan.
Definition Infinity (neg : bool) : number := S754_infinity neg.

(** The binary64 value nearest to [m * 2^e]. *)
Definition dyadic (m e : Z) : number := binary_normalize prec emax m e false.

Definition of_Z (z : Z) : number := dyadic z 0.

(** The binary64 value nearest to [(-1)^neg * m * 10^e], ties to even:
    the rounding applied to the mathematical value of a numeric
    literal. *)
Definition of_decimal (neg : bool) (m : N) (e : Z) : number :=
  match m with
  | N0 => S754_zero neg
  | Npos p =>
      match e with
      | Zneg k =>
          SFdiv prec emax (S754_finite neg p 0)
                (S754_finite false (10 ^ k)%positive 0)
      | _ => binary_round prec emax neg (p * Z.to_pos (10 ^ e))%positive 0
      end
  end.

Definition is_nan (x : number) : bool :=
  match x with S754_nan => true | _ => false end.

(** *** Numeric literals *)

Definition digit_value (radix : N) (c : ascii) : option N :=
  let n := JS.code c in
  let v := if ((48 <=? n) && (n <=? 57))%N then Some (n - 48)%N
           else if ((97 <=? n) && (n <=? 102))%N then Some (n - 87)%N
           else if ((65 <=? n) && (n <=? 70))%N then Some (n - 55)%N
           else None in
  match v with
  | Some d => if (d <? radix)%N then Some d else None
  | None => None
  end.

(** The longest prefix of decimal digits, and what follows it. *)
Fixpoint span_digits (s : string) : string * string :=
  match s with
  | "" => ("", "")
  | String c s' =>
      match digit_value 10 c with
      | Some _ => let '(ds, r) := span_digits s' in (String c ds, r)
      | None => ("", s)
      end
  end.

(** The value of a string of digits in a radix, [None] when a
    character is not a digit of that radix. *)
Fixpoint digits_from (radix acc : N) (s : string) : option N :=
  match s with
  | "" => Some acc
  | String c s' =>
      match digit_value radix c with
      | Some d => digits_from radix (acc * radix + d)%N s'
      | None => None
      end
  end.

Definition decimal_value (ds : string) : N :=
  default 0%N (digits_from 10 0 ds).

(** An optional sign: whether it is a minus, and the text after it. *)
Definition scan_sign (s : string) : bool * string :=
  match s with
  | String c r =>
      if Ascii.eqb c "+" then (false, r)
      else if Ascii.eqb c "-" then (true, r)
      else (false, s)
  | "" => (false, s)
  end.

(** ExponentPart, when one starts the string: its value and the rest;
    otherwise exponent 0 and the string itself. *)
Definition scan_exponent (s : string) : Z * string :=
  match s with
  | String c r =>
      if Ascii.eqb c "e" || Ascii.eqb c "E" then
        let sg := scan_sign r in
        let ds := span_digits sg.2 in
        if String.eqb ds.1 "" then (0%Z, s)
        else let v := Z.of_N (decimal_value ds.1) in
             (if sg.1 then (- v)%Z else v, ds.2)
      else (0%Z, s)
  | "" => (0%Z, s)
  end.

Inductive literal : Type :=
| LitInfinity
| LitDecimal (m : N) (e : Z).

(** The longest prefix that is a StrUnsignedDecimalLiteral, and the
    characters after it. *)
Definition scan_unsigned (s : string) : option (literal * string) :=
  if String.prefix "Infinity" s then Some (LitInfinity, JS.drop 8 s)
  else
    let ip := span_digits s in
    let integer :=
      if String.eqb ip.1 "" then None
      else
        let ex := scan_exponent ip.2 in
        Some (LitDecimal (decimal_value ip.1) ex.1, ex.2) in
    match ip.2 with
    | String c r2 =>
        if Ascii.eqb c "." then
          let fp := span_digits r2 in
          if String.eqb ip.1 "" && String.eqb fp.1 "" then None
          else
            let ex := scan_exponent fp.2 in
            Some (LitDecimal (decimal_value (ip.1 +:+ fp.1))
                             (ex.1 - Z.of_nat (String.length fp.1)), ex.2)
        else integer
    | "" => integer
    end.

Definition literal_value (neg : bool) (l : literal) : number :=
  match l with
  | LitInfinity => Infinity neg
  | LitDecimal m e => of_decimal neg m e
  end.

(** The longest prefix that is a StrDecimalLiteral, as a number, and the
    characters after it. *)
Definition scan_decimal (s : string) : option (number * string) :=
  let sg := scan_sign s in
  match scan_unsigned sg.2 with
  | Some (l, rest) => Some (literal_value sg.1 l, rest)
  | None => None
  end.

(** NonDecimalIntegerLiteral: [0b], [0o] or [0x] (either case) and at
    least one digit of that radix, nothing else. *)
Definition radix_of_prefix (s : string) : option (N * string) :=
  match s with
  | String "0" (String c r) =>
      if Ascii.eqb c "x" || Ascii.eqb c "X" then Some (16%N, r)
      else if Ascii.eqb c "o" || Ascii.eqb c "O" then Some (8%N, r)
      else if Ascii.eqb c "b" || Ascii.eqb c "B" then Some (2%N, r)
      else None
  | _ => None
  end.

(** StringToNumber on text already trimmed: the empty text is 0, a
    radix prefix announces an integer literal, anything else has to be a
    StrDecimalLiteral from its first to its last character. *)
Definition literal_to_number (t : string) : number :=
  match t with
  | "" => S754_zero false
  | _ =>
      match radix_of_prefix t with
      | Some (radix, ds) =>
          match ds, digits_from radix 0 ds with
          | String _ _, Some v => of_Z (Z.of_N v)
          | _, _ => NaN
          end
      | None =>
          match scan_decimal t with
          | Some (x, "") => x
          | _ => NaN
          end
      end
  end.

(** [Number(s)] *)
Definition Number (s : string) : number := literal_to_number (JS.trim s).

(** [isNaN(s)] for a string argument *)
Definition isNaN (s : string) : bool := is_nan (Number s).

(** [parseFloat(s)] *)
Definition parseFloat (s : string) : number :=
  match scan_decimal (JS.trimStart s) with
  | Some (x, _) => x
  | None => NaN
  end.

End Num.

(** ** Elements *)

#[local] Unset Elimination Schemes.
Inductive Element : Type :=
  mkElement {
    tagName : string;
    attributes : gmap string string;
    children : list Element
  }.
#[local] Set Elimination Schemes.

(** [element.getAttribute(name)]: [None] stands for [null]. *)
Definition getAttribute (el : Element) (name : string) : option string :=
  attributes el !! name.

Definition is_group (el : Element) : bool :=
  String.eqb (JS.toLowerCase (tagName el)) "g".

(** The element and everything below it, in document order. *)
Fixpoint descendants_or_self (el : Element) : list Element :=
  el :: flat_map descendants_or_self (children el).

Definition descendants (el : Element) : list Element :=
  flat_map descendants_or_self (children el).

(** [element.getElementsByTagName(name)] for a name other than ["*"]. *)
Definition getElementsByTagName (el : Element) (name : string) : list Element :=
  filter (λ e, tagName e = name) (descendants el).

(** [document.getElementById(id)], the document given by its root: the
    first element in document order whose [id] attribute is [id]. *)
Definition getElementById (doc : Element) (id : string) : option Element :=
  head (filter (λ e, getAttribute e "id" = Some id) (descendants_or_self doc)).

(** ** Outcomes of calls and property lookup *)

Inductive error : Type := TypeError.

Inductive completion (A : Type) : Type :=
| Return (a : A)
| Throw (e : error).
Arguments Return {A} a.
Arguments Throw {A} e.

#[global] Instance completion_ret : MRet completion := λ A a, Return a.
#[global] Instance completion_bind : MBind completion :=
  λ A B f m, match m with Return a => f a | Throw e => Throw e end.

(** [list.forEach] with a body that updates a state and may raise. *)
Fixpoint forEach {S A : Type} (body : S → A → completion S)
    (l : list A) (s : S) : completion S :=
  match l with
  | [] => Return s
  | a :: rest => s' ← body s a; forEach body rest s'
  end.

(** The own property names of [Object.prototype], which every object
    literal inherits. *)
Definition Object_prototype_keys : list string :=
  [ "constructor"; "__defineGetter__"; "__defineSetter__"; "hasOwnProperty";
    "__lookupGetter__"; "__lookupSetter__"; "isPrototypeOf";
    "propertyIsEnumerable"; "toString"; "valueOf"; "__proto__";
    "toLocaleString" ].

(** What [obj[key]] finds on an object literal: an own property, a
    member of [Object.prototype], or nothing ([undefined]). *)
Inductive property (A : Type) : Type :=
| Own (v : A)
| Inherited
| Missing.
Arguments Own {A} v.
Arguments Inherited {A}.
Arguments Missing {A}.

Definition get_property {A : Type} (obj : gmap string A) (key : string) : property A :=
  match obj !! key with
  | Some v => Own v
  | None => if bool_decide (key ∈ Object_prototype_keys) then Inherited else Missing
  end.

(** [table[key] || []] followed by a call of [reduce] on the result: an
    own entry is an array, an absent one is replaced by the empty array,
    and an inherited member is truthy but has no [reduce] method. *)
Definition array_or_empty (p : property (list string)) : completion (list string) :=
  match p with
  | Own l => Return l
  | Missing => Return []
  | Inherited => Throw TypeError
  end.

(** ** flattenShapes *)

(** One turn of the loop body: a group contributes the flattening of
    its children, any other element contributes itself. *)
Fixpoint flattenShapes_el (el : Element) : list Element :=
  if String.eqb (JS.toLowerCase (tagName el)) "g"
  then flat_map flattenShapes_el (children el)
  else [el].

Definition flattenShapes (elements : list Element) : list Element :=
  flat_map flattenShapes_el elements.

(** The number of non-group nodes met when groups are expanded at every
    depth. *)
Fixpoint count_shapes_el (el : Element) : nat :=
  if String.eqb (JS.toLowerCase (tagName el)) "g"
  then list_sum (map count_shapes_el (children el))
  else 1.

Definition count_shapes (elements : list Element) : nat :=
  list_sum (map count_shapes_el elements).

(** ** parsePoints *)

Definition parsePoints (points : string) : list (list Num.number) :=
  map (λ p, map Num.Number (JS.split "," p)) (JS.split_ws (JS.trim points)).

(** ** getShapeAttributes *)

Inductive AttrValue : Type :=
| ANull
| ANumber (x : Num.number)
| AString (s : string)
| APoints (pts : list (list Num.number)).

(** The function returns either the text of [d] (or [null]) for a path,
    or a record of attribute values. *)
Inductive ShapeAttributes : Type :=
| PathData (d : option string)
| AttributeRecord (acc : gmap string AttrValue).

Definition attributesMap : gmap string (list string) :=
  list_to_map
    [ ("circle", ["cx"; "cy"; "r"]);
      ("ellipse", ["cx"; "cy"; "rx"; "ry"]);
      ("rect", ["x"; "y"; "width"; "height"; "rx"; "ry"]);
      ("line", ["x1"; "y1"; "x2"; "y2"]);
      ("polyline", ["points"]);
      ("polygon", ["points"]) ].

(** The value stored under [attr] by the body of [reduce]. *)
Definition resolve_attribute (element : Element) (attr : string) : AttrValue :=
  match getAttribute element attr with
  | Some value =>
      if String.eqb attr "points" then APoints (parsePoints value)
      else if Num.isNaN value then AString value
      else ANumber (Num.parseFloat value)
  | None => ANull
  end.

Definition getShapeAttributes (element : Element) : completion ShapeAttributes :=
  let shapeType := JS.toLowerCase (tagName element) in
  let attributes := get_property attributesMap shapeType in
  if String.eqb shapeType "path" then Return (PathData (getAttribute element "d"))
  else
    attrs ← array_or_empty attributes;
    Return (AttributeRecord
              (foldl (λ acc attr, <[attr := resolve_attribute element attr]> acc) ∅ attrs)).

(** ** parseGradient *)

Inductive OffsetValue : Type :=
| OffsetString (s : string)
| OffsetNumber (x : Num.number).

Record Stop : Type := mkStop { offset : OffsetValue; color : string }.

Record GradientRecord : Type :=
  mkGradient {
    type : string;
    gradientDetails : gmap string (option string);
    stops : list Stop
  }.

Definition gradientAttributes : gmap string (list string) :=
  list_to_map
    [ ("linearGradient", ["x1"; "y1"; "x2"; "y2"]);
      ("radialGradient", ["cx"; "cy"; "r"; "fx"; "fy"]) ].

(** [stop.getAttribute(name) || fallback]: [null] and the empty string
    are falsy. *)
Definition attribute_or {A : Type} (el : Element) (name : string)
    (present : string → A) (fallback : A) : A :=
  match getAttribute el name with
  | Some v => if String.eqb v "" then fallback else present v
  | None => fallback
  end.

Definition parse_stop (stop : Element) : Stop :=
  {| offset := attribute_or stop "offset" OffsetString (OffsetNumber (Num.of_Z 0));
     color := attribute_or stop "stop-color" id "#000000" |}.

Definition parseGradient (gradient : option Element) : completion (option GradientRecord) :=
  match gradient with
  | None => Return None
  | Some gradient =>
      attrs ← array_or_empty (get_property gradientAttributes (tagName gradient));
      let gradientDetails :=
        foldl (λ acc attr, <[attr := getAttribute gradient attr]> acc) ∅ attrs in
      let stops := map parse_stop (getElementsByTagName gradient "stop") in
      Return (Some {| type := JS.toLowerCase (JS.remove_first "Gradient" (tagName gradient));
                      gradientDetails := gradientDetails;
                      stops := stops |})
  end.

(** ** getStyleAttributes *)

Inductive StyleValue : Type :=
| SUndefined
| SNull
| SString (s : string)
| SGradient (g : GradientRecord).

Definition style_attributes : list string :=
  ["fill"; "stroke"; "stroke-width"; "opacity"; "transform"; "clip-path"].

(** [inlineStyle.split(";").filter(Boolean).map(s => s.split(":").map(part => part.trim()))] *)
Definition inline_entries (inlineStyle : string) : list (list string) :=
  map (λ s, map JS.trim (JS.split ":" s))
      (filter (λ s, s ≠ "") (JS.split ";" inlineStyle)).

(** [Object.fromEntries]: element 0 of an entry is the key and element 1
    the value; an element that is not there reads as [undefined]. *)
Definition fromEntries (entries : list (list string)) : gmap string StyleValue :=
  foldl (λ obj entry,
           <[ default "undefined" (entry !! 0%nat)
              := from_option SString SUndefined (entry !! 1%nat) ]> obj)
        ∅ entries.

(** [Object.assign(target, source)] for objects whose values are not
    objects: every own property of [source] is assigned on [target],
    except that assigning ["__proto__"] runs the inherited setter, which
    ignores such values. *)
Definition Object_assign (target source : gmap string StyleValue) : gmap string StyleValue :=
  delete "__proto__" source ∪ target.

(** The record after the inline pass. *)
Definition inline_styles (element : Element) : gmap string StyleValue :=
  match getAttribute element "style" with
  | Some inlineStyle =>
      if String.eqb inlineStyle "" then ∅
      else Object_assign ∅ (fromEntries (inline_entries inlineStyle))
  | None => ∅
  end.

(** The first capture group of the regular expression matched against
    [value]: a hash sign, then as many characters other than line
    terminators as possible, then a closing parenthesis.
    [to_last_paren s] is the part of [s] before the last closing
    parenthesis that no line terminator separates from the start of [s]. *)
Fixpoint to_last_paren (s : string) : option string :=
  match s with
  | "" => None
  | String c s' =>
      if JS.is_line_terminator c then None
      else match to_last_paren s' with
           | Some r => Some (String c r)
           | None => if Ascii.eqb c ")" then Some "" else None
           end
  end.

Fixpoint match_gradient_id (value : string) : option string :=
  match value with
  | "" => None
  | String c s' =>
      if Ascii.eqb c "#" then
        match to_last_paren s' with
        | Some g => Some g
        | None => match_gradient_id s'
        end
      else match_gradient_id s'
  end.

(** [styles.hasOwnProperty(attr)]: the method is looked up on [styles]
    itself first, where an own property of that name is not callable. *)
Definition call_hasOwnProperty (styles : gmap string StyleValue) (attr : string)
  : completion bool :=
  match styles !! "hasOwnProperty" with
  | Some _ => Throw TypeError
  | None => Return (bool_decide (is_Some (styles !! attr)))
  end.

(** The body of [attributes.forEach]. *)
Definition style_step (ownerDocument element : Element)
    (styles : gmap string StyleValue) (attr : string)
  : completion (gmap string StyleValue) :=
  match getAttribute element attr with
  | None => Return styles
  | Some value =>
      if String.eqb value "" || String.eqb value "none" then Return styles
      else if JS.startsWith value "url(" then
        match match_gradient_id value with
        | Some gradientId =>
            if String.eqb gradientId "" then Return styles
            else
              match getElementById ownerDocument gradientId with
              | Some gradient =>
                  g ← parseGradient (Some gradient);
                  Return (<[attr := from_option SGradient SNull g]> styles)
              | None => Return styles
              end
        | None => Return styles
        end
      else
        present ← call_hasOwnProperty styles attr;
        Return (if (present : bool) then styles else <[attr := SString value]> styles)
  end.

Definition getStyleAttributes (ownerDocument element : Element)
  : completion (gmap string StyleValue) :=
  forEach (style_step ownerDocument element) style_attributes (inline_styles element).

(** ** Shapes of input text used in the statements *)

(** Text made of white space only (the empty text included). *)
Fixpoint all_ws (s : string) : bool :=
  match s with
  | "" => true
  | String c s' => JS.is_ws c && all_ws s'
  end.

Fixpoint no_ws (s : string) : bool :=
  match s with
  | "" => true
  | String c s' => negb (JS.is_ws c) && no_ws s'
  end.

(** A point token: at least one character, none of them white space. *)
Definition is_token (t : string) : bool := negb (String.eqb t "") && no_ws t.

(** A gap between tokens: at least one character, all white space. *)
Definition is_gap (w : string) : bool := negb (String.eqb w "") && all_ws w.

(** Tokens written one after the other with the given gaps between. *)
Fixpoint join_points (first : string) (rest : list (string * string)) : string :=
  match rest with
  | [] => first
  | (gap, tok) :: rest' => first +:+ gap +:+ join_points tok rest'
  end.

Fixpoint count_char (c : ascii) (s : string) : nat :=
  match s with
  | "" => 0
  | String c' s' => (if Ascii.eqb c' c then 1 else 0) + count_char c s'
  end.

(** ** The wording of the specification, for comparison *)

(** "Split on the first colon into (property, value)": the text before
    the first occurrence of [sep] and the text after it. *)
Fixpoint split_first (sep : ascii) (s : string) : option (string * string) :=
  match s with
  | "" => None
  | String c s' =>
      if Ascii.eqb c sep then Some ("", s')
      else match split_first sep s' with
           | Some (p, v) => Some (String c p, v)
           | None => None
           end
  end.

(** "The tag name with the trailing suffix removed": [s] without
    [suffix] when it ends with it, [s] itself otherwise. *)
Fixpoint remove_suffix (suffix s : string) : string :=
  if String.eqb s suffix then ""
  else match s with
       | "" => ""
       | String c s' => String c (remove_suffix suffix s')
       end.

(** Tag names in which ["Gradient"] occurs at the end or not at
    all, and which do not name a member of [Object.prototype]. *)
Definition gradient_tag (tag : string) : Prop :=
  (tag ∉ Object_prototype_keys)
  ∧ (∀ p q, tag = p +:+ "Gradient" +:+ q → q = "").

Fixpoint no_line_terminator (s : string) : bool :=
  match s with
  | "" => true
  | String c s' => negb (JS.is_line_terminator c) && no_line_terminator s'
  end.

(** ** A sample document *)

Definition sample_gradient : Element :=
  mkElement "linearGradient" {[ "id" := "g1"; "x1" := "0"; "x2" := "1" ]}
    [ mkElement "stop" {[ "offset" := "0"; "stop-color" := "#fff" ]} [];
      mkElement "stop" {[ "offset" := "1" ]} [] ].

Definition sample_rect : Element :=
  mkElement "rect"
    {[ "style" := "fill:red;stroke:blue";
       "fill" := "url(#g1)"; "stroke" := "url(#missing)"; "opacity" := "0.5";
       "x" := "1"; "width" := "10" ]} [].

Definition sample_circle : Element :=
  mkElement "circle" {[ "cx" := "5"; "cy" := "10"; "r" := "2.5" ]} [].

Definition sample_group : Element :=
  mkElement "G" ∅ [ sample_rect; mkElement "g" ∅ [ sample_circle ] ].

Definition sample_document : Element :=
  mkElement "svg" ∅
    [ mkElement "defs" ∅ [ sample_gradient ];
      sample_group;
      mkElement "path" {[ "d" := "M0 0 L10 10" ]} [] ].

(** ** Further shapes of input used in the statements *)

(** The nodes the flattening walks through: the input nodes, and the
    children of every group it walks through. *)
Inductive reached (elements : list Element) : Element → Prop :=
| reached_input el : el ∈ elements → reached elements el
| reached_child g el :
    reached elements g → is_group g = true → el ∈ children g →
    reached elements el.

(** Declarations written as style text, with a semicolon between two of
    them. *)
Fixpoint style_text (decls : list (string * string)) : string :=
  match decls with
  | [] => ""
  | (p, v) :: rest =>
      match rest with
      | [] => p +:+ ":" +:+ v
      | _ :: _ => p +:+ ":" +:+ v +:+ ";" +:+ style_text rest
      end
  end.

(** One declaration as it is written. *)
Definition segment (d : string * string) : string := d.1 +:+ ":" +:+ d.2.

(** Text free of colons and semicolons. *)
Definition plain_text (s : string) : bool :=
  Nat.eqb (count_char ":" s) 0 && Nat.eqb (count_char ";" s) 0.

(** The record that holds the declarations taken from left to right. *)
Definition declared (decls : list (string * string)) : gmap string StyleValue :=
  foldl (λ m d, <[JS.trim d.1 := SString (JS.trim d.2)]> m) ∅ decls.

(** An attribute value the loop of [getStyleAttributes] acts on. *)
Definition usable (value : string) : bool :=
  negb (String.eqb value "" || String.eqb value "none").

(** Whether the turn of the loop for [attr] raises, [shadowed] telling
    whether the record has an own property named [hasOwnProperty]. *)
Definition turn_raises (ownerDocument element : Element) (shadowed : bool)
    (attr : string) : bool :=
  match getAttribute element attr with
  | None => false
  | Some value =>
      usable value &&
      (if JS.startsWith value "url(" then
         match match_gradient_id value with
         | Some gradientId =>
             negb (String.eqb gradientId "") &&
             match getElementById ownerDocument gradientId with
             | Some gradient => bool_decide (tagName gradient ∈ Object_prototype_keys)
             | None => false
             end
         | None => false
         end
       else shadowed)
  end.

(** * Properties *)

#[local] Arguments String.append !_ _ / : simpl nomatch.

(** ** Induction over element trees *)

Fixpoint Element_tree_ind (P : Element → Prop)
    (step : ∀ tag attrs kids, Forall P kids → P (mkElement tag attrs kids))
    (el : Element) : P el :=
  match el with
  | mkElement tag attrs kids =>
      step tag attrs kids
        ((fix all (l : list Element) : Forall P l :=
            match l with
            | [] => List.Forall_nil P
            | e :: r => List.Forall_cons P e r (Element_tree_ind P step e) (all r)
            end) kids)
  end.

(** ** flattenShapes *)

Section Flatten.

Implicit Types (el : Element) (elements : list Element).

(** The loop of the source, one element at a time. *)
Lemma flattenShapes_cons el elements :
  flattenShapes (el :: elements) =
  (if is_group el then flattenShapes (children el) else [el])
    ++ flattenShapes elements.
Proof. unfold flattenShapes, is_group. simpl. by destruct el. Qed.

Lemma flattenShapes_app elements1 elements2 :
  flattenShapes (elements1 ++ elements2) =
  flattenShapes elements1 ++ flattenShapes elements2.
Proof. unfold flattenShapes. apply flat_map_app. Qed.

Lemma count_shapes_cons el elements :
  count_shapes (el :: elements) =
  (if is_group el then count_shapes (children el) else 1) + count_shapes elements.
Proof. unfold count_shapes, is_group. simpl. by destruct el. Qed.

Lemma flattenShapes_el_no_group el :
  Forall (λ e, is_group e = false) (flattenShapes [el]).
Proof.
  induction el as [tag attrs kids IH] using Element_tree_ind.
  rewrite flattenShapes_cons, app_nil_r.
  destruct (is_group _) eqn:Hg; simpl.
  - clear Hg. induction IH as [|k ks Hk _ IHks]; [constructor|].
    change (k :: ks) with ([k] ++ ks).
    rewrite flattenShapes_app. apply Forall_app; split; assumption.
  - repeat constructor. exact Hg.
Qed.

Lemma flattenShapes_no_group elements :
  Forall (λ e, is_group e = false) (flattenShapes elements).
Proof.
  induction elements as [|el rest IH]; [constructor|].
  change (el :: rest) with ([el] ++ rest).
  rewrite flattenShapes_app. apply Forall_app; split; [|done].
  apply flattenShapes_el_no_group.
Qed.

Lemma flattenShapes_el_length el :
  length (flattenShapes [el]) = count_shapes [el].
Proof.
  induction el as [tag attrs kids IH] using Element_tree_ind.
  rewrite flattenShapes_cons, count_shapes_cons, app_nil_r.
  change (count_shapes []) with 0. rewrite Nat.add_0_r.
  destruct (is_group _); simpl; [|done].
  induction IH as [|k ks Hk _ IHks]; [done|].
  rewrite flattenShapes_cons, count_shapes_cons, length_app, IHks.
  rewrite flattenShapes_cons, count_shapes_cons, app_nil_r in Hk.
  change (count_shapes []) with 0 in Hk. rewrite Nat.add_0_r in Hk.
  by rewrite Hk.
Qed.

Lemma flattenShapes_length elements :
  length (flattenShapes elements) = count_shapes elements.
Proof.
  induction elements as [|el rest IH]; [done|].
  rewrite flattenShapes_cons, count_shapes_cons, length_app, IH.
  pose proof (flattenShapes_el_length el) as Hel.
  rewrite flattenShapes_cons, count_shapes_cons, app_nil_r in Hel.
  change (count_shapes []) with 0 in Hel. rewrite Nat.add_0_r in Hel.
  by rewrite Hel.
Qed.

(** The output lists its nodes in the order in which a walk of the
    input in document order meets them. *)
Lemma flattenShapes_el_sublist el :
  flattenShapes [el] `sublist_of` descendants_or_self el.
Proof.
  induction el as [tag attrs kids IH] using Element_tree_ind.
  rewrite flattenShapes_cons, app_nil_r.
  destruct (is_group _); simpl.
  - apply sublist_cons.
    induction IH as [|k ks Hk _ IHks]; [done|].
    change (k :: ks) with ([k] ++ ks).
    rewrite flattenShapes_app. simpl. by apply sublist_app.
  - apply sublist_skip, sublist_nil_l.
Qed.

Lemma flattenShapes_sublist elements :
  flattenShapes elements `sublist_of` flat_map descendants_or_self elements.
Proof.
  induction elements as [|el rest IH]; [done|].
  change (el :: rest) with ([el] ++ rest).
  rewrite flattenShapes_app. simpl. apply sublist_app; [|done].
  apply flattenShapes_el_sublist.
Qed.

End Flatten.

(** C3.  For every sequence of element nodes, the output of
    [flattenShapes] holds no node whose lower-cased tag name is ["g"];
    its length is the number of non-group nodes counted recursively
    through groups at every depth; encounter order is kept: the output
    of a concatenation is the concatenation of the outputs, the output
    is a subsequence of the document-order walk of the input, and
    flattening [A; G(B, C); D] with [G] a group and [A], [B], [C], [D]
    not groups gives [A; B; C; D]; the empty input gives the empty
    output. *)
Theorem flattenShapes_spec (elements : list Element) :
  Forall (λ el, is_group el = false) (flattenShapes elements)
  ∧ length (flattenShapes elements) = count_shapes elements
  ∧ flattenShapes elements `sublist_of` flat_map descendants_or_self elements
  ∧ (∀ more, flattenShapes (elements ++ more)
             = flattenShapes elements ++ flattenShapes more)
  ∧ (∀ A B C D G,
       is_group A = false → is_group B = false →
       is_group C = false → is_group D = false →
       is_group G = true → children G = [B; C] →
       flattenShapes [A; G; D] = [A; B; C; D])
  ∧ flattenShapes [] = [].
Proof.
  split_and!.
  - apply flattenShapes_no_group.
  - apply flattenShapes_length.
  - apply flattenShapes_sublist.
  - intros more. apply flattenShapes_app.
  - intros A B C D G HA HB HC HD HG Hkids.
    rewrite !flattenShapes_cons, HA, HG, HD, Hkids.
    rewrite !flattenShapes_cons, HB, HC. reflexivity.
  - reflexivity.
Qed.

(** ** Strings: trimming and splitting *)

Section Strings.

Implicit Types (s t w : string) (c : ascii).

Lemma string_app_nil_r s : s +:+ "" = s.
Proof. induction s as [|c s IH]; simpl; [done|by rewrite IH]. Qed.

Lemma string_app_assoc s t w : (s +:+ t) +:+ w = s +:+ t +:+ w.
Proof. induction s as [|c s IH]; simpl; [done|by rewrite IH]. Qed.

Lemma all_ws_app s t : all_ws (s +:+ t) = all_ws s && all_ws t.
Proof.
  induction s as [|c s IH]; simpl; [done|].
  by rewrite IH, andb_assoc.
Qed.

Lemma trimStart_all_ws s : all_ws s = true → JS.trimStart s = "".
Proof.
  induction s as [|c s IH]; simpl; [done|].
  intros [Hc Hs]%andb_true_iff. rewrite Hc. auto.
Qed.

Lemma trimStart_app_ws w s :
  all_ws w = true → JS.trimStart (w +:+ s) = JS.trimStart s.
Proof.
  induction w as [|c w IH]; simpl; [done|].
  intros [Hc Hw]%andb_true_iff. rewrite Hc. auto.
Qed.

Lemma trimStart_app_nonblank s t :
  all_ws s = false → JS.trimStart (s +:+ t) = JS.trimStart s +:+ t.
Proof.
  induction s as [|c s IH]; simpl; [done|].
  destruct (JS.is_ws c); simpl; [exact IH|done].
Qed.

Lemma trimEnd_all_ws s : all_ws s = true → JS.trimEnd s = "".
Proof.
  induction s as [|c s IH]; simpl; [done|].
  intros [Hc Hs]%andb_true_iff. by rewrite (IH Hs), Hc.
Qed.

Lemma trimEnd_app_ws s w :
  all_ws w = true → JS.trimEnd (s +:+ w) = JS.trimEnd s.
Proof.
  intros Hw. induction s as [|c s IH]; simpl.
  - by apply trimEnd_all_ws.
  - by rewrite IH.
Qed.

(** Text that does not start with white space is left alone by
    [trimStart]; text whose last character is not white space is left
    alone by [trimEnd]. *)
Lemma trimStart_token_app t s :
  is_token t = true → JS.trimStart (t +:+ s) = t +:+ s.
Proof.
  destruct t as [|c t]; [done|]. unfold is_token. simpl.
  by destruct (JS.is_ws c).
Qed.

Lemma trimEnd_app_token s t :
  is_token t = true → JS.trimEnd (s +:+ t) = s +:+ t.
Proof.
  intros Ht.
  assert (Htok : JS.trimEnd t = t ∧ t ≠ "").
  { clear s. induction t as [|c t IH]; [done|]. split; [|done].
    unfold is_token in Ht. simpl in *.
    destruct (JS.is_ws c) eqn:Hc; [done|]. simpl in Ht.
    destruct t as [|c' t']; [done|].
    destruct IH as [IH _]; [exact Ht|]. by rewrite IH. }
  destruct Htok as [Htrim Hne].
  induction s as [|c s IH]; simpl; [done|].
  rewrite IH. destruct (s +:+ t) eqn:Hst; [|done].
  destruct s; simpl in Hst; [congruence|done].
Qed.

Lemma split_ws_from_cons_inv b s : ∃ p ps, JS.split_ws_from b s = p :: ps.
Proof.
  revert b. induction s as [|c s IH]; intros b; simpl; [by eauto|].
  destruct (JS.is_ws c).
  - destruct b; [apply IH|by eauto].
  - destruct (IH false) as (p & ps & ->). simpl. by eauto.
Qed.

(** White space met while a run of separators is open is skipped. *)
Lemma split_ws_from_run w s :
  all_ws w = true → JS.split_ws_from true (w +:+ s) = JS.split_ws_from true s.
Proof.
  induction w as [|c w IH]; simpl; [done|].
  intros [Hc Hw]%andb_true_iff. rewrite Hc. auto.
Qed.

(** A token is copied in front of the piece that follows it. *)
Lemma split_ws_from_token b t s p ps :
  is_token t = true →
  JS.split_ws_from false s = p :: ps →
  JS.split_ws_from b (t +:+ s) = (t +:+ p) :: ps.
Proof.
  intros Ht Hs. unfold is_token in Ht.
  destruct t as [|c t]; [done|]. simpl in Ht.
  destruct (JS.is_ws c) eqn:Hc; [done|]. simpl in *. rewrite Hc.
  assert (Hgo : JS.split_ws_from false (t +:+ s) = (t +:+ p) :: ps).
  { clear Hc c b. induction t as [|c t IH]; simpl in *; [done|].
    destruct (JS.is_ws c); [done|]. simpl in Ht. by rewrite IH. }
  by rewrite Hgo.
Qed.

Lemma split_ws_from_join b first rest :
  is_token first = true →
  Forall (λ gt, is_gap gt.1 = true ∧ is_token gt.2 = true) rest →
  JS.split_ws_from b (join_points first rest) = first :: rest.*2.
Proof.
  intros Hfirst Hrest. revert b first Hfirst.
  induction Hrest as [|[gap tok] rest [Hgap Htok] _ IH]; intros b first Hfirst.
  - simpl. rewrite <- (string_app_nil_r first) at 1.
    erewrite split_ws_from_token; [|done|done]. by rewrite string_app_nil_r.
  - simpl in *.
    erewrite split_ws_from_token; [by rewrite string_app_nil_r|done|].
    unfold is_gap in Hgap. destruct gap as [|g gap]; [done|]. simpl in *.
    destruct (JS.is_ws g); [|done]. simpl in Hgap.
    by rewrite split_ws_from_run, IH.
Qed.

Lemma join_points_token_l first rest :
  ∃ s, join_points first rest = first +:+ s.
Proof.
  destruct rest as [|[gap tok] rest]; simpl.
  - exists "". by rewrite string_app_nil_r.
  - by eauto.
Qed.

Lemma join_points_token_r first rest :
  is_token first = true →
  Forall (λ gt, is_gap gt.1 = true ∧ is_token gt.2 = true) rest →
  ∃ s t, join_points first rest = s +:+ t ∧ is_token t = true.
Proof.
  intros Hfirst Hrest. revert first Hfirst.
  induction Hrest as [|[gap tok] rest [Hgap Htok] _ IH]; intros first Hfirst.
  - exists "", first. done.
  - simpl in *. destruct (IH tok Htok) as (s & t & -> & Ht).
    exists (first +:+ gap +:+ s), t. by rewrite !string_app_assoc.
Qed.

Lemma trim_join lead trail first rest :
  all_ws lead = true → all_ws trail = true →
  is_token first = true →
  Forall (λ gt, is_gap gt.1 = true ∧ is_token gt.2 = true) rest →
  JS.trim (lead +:+ join_points first rest +:+ trail) = join_points first rest.
Proof.
  intros Hlead Htrail Hfirst Hrest. unfold JS.trim.
  rewrite trimStart_app_ws by done.
  destruct (join_points_token_l first rest) as [s Hs].
  rewrite Hs, string_app_assoc, trimStart_token_app by done.
  rewrite <- string_app_assoc, <- Hs, trimEnd_app_ws by done.
  destruct (join_points_token_r first rest) as (s' & t & -> & Ht); [done..|].
  by apply trimEnd_app_token.
Qed.

Lemma trim_blank s : all_ws s = true → JS.trim s = "".
Proof. intros Hs. unfold JS.trim. by rewrite trimStart_all_ws. Qed.

(** White space around a text does not change what [trim] returns. *)
Lemma trim_padding lead s trail :
  all_ws lead = true → all_ws trail = true →
  JS.trim (lead +:+ s +:+ trail) = JS.trim s.
Proof.
  intros Hlead Htrail. unfold JS.trim.
  rewrite trimStart_app_ws by done.
  destruct (all_ws s) eqn:Hs.
  - rewrite !trimStart_all_ws; [done..|].
    by rewrite all_ws_app, Hs, Htrail.
  - by rewrite trimStart_app_nonblank, trimEnd_app_ws.
Qed.

Lemma split_length sep s : length (JS.split sep s) = S (count_char sep s).
Proof.
  induction s as [|c s IH]; simpl; [done|].
  destruct (Ascii.eqb c sep); simpl; [by rewrite IH|].
  destruct (JS.split sep s); simpl in *; [done|exact IH].
Qed.

End Strings.

(** ** Numeric text followed by white space *)

Section NumberPadding.

Implicit Types (s t u pat : string) (c : ascii).

(** White space is none of the characters a numeric literal is made of. *)
Lemma is_ws_cases c :
  JS.is_ws c = true →
  Num.digit_value 10 c = None
  ∧ Ascii.eqb c "e" = false ∧ Ascii.eqb c "E" = false
  ∧ Ascii.eqb c "+" = false ∧ Ascii.eqb c "-" = false
  ∧ c ≠ "."%char ∧ c ≠ "I"%char.
Proof.
  destruct c as [[] [] [] [] [] [] [] []]; vm_compute; intros Hws;
    first [discriminate Hws|repeat split; discriminate].
Qed.

Lemma span_digits_app u t :
  all_ws t = true →
  Num.span_digits (u +:+ t)
  = ((Num.span_digits u).1, (Num.span_digits u).2 +:+ t).
Proof.
  intros Ht. induction u as [|c u IH]; simpl.
  - destruct t as [|c t]; [done|]. simpl in *.
    apply andb_true_iff in Ht as [Hc _].
    by destruct (is_ws_cases c Hc) as (-> & _).
  - destruct (Num.digit_value 10 c); [|done].
    rewrite IH. by destruct (Num.span_digits u).
Qed.

Lemma scan_sign_app u t :
  all_ws t = true →
  Num.scan_sign (u +:+ t) = ((Num.scan_sign u).1, (Num.scan_sign u).2 +:+ t).
Proof.
  intros Ht. destruct u as [|c u]; simpl.
  - destruct t as [|c t]; [done|]. simpl in *.
    apply andb_true_iff in Ht as [Hc _].
    by destruct (is_ws_cases c Hc) as (_ & _ & _ & -> & -> & _).
  - by destruct (Ascii.eqb c "+"), (Ascii.eqb c "-").
Qed.

Lemma scan_exponent_app u t :
  all_ws t = true →
  Num.scan_exponent (u +:+ t)
  = ((Num.scan_exponent u).1, (Num.scan_exponent u).2 +:+ t).
Proof.
  intros Ht. destruct u as [|c u].
  - destruct t as [|c t]; [done|]. simpl in *.
    apply andb_true_iff in Ht as [Hc _].
    by destruct (is_ws_cases c Hc) as (_ & -> & -> & _).
  - unfold Num.scan_exponent. simpl.
    destruct (Ascii.eqb c "e" || Ascii.eqb c "E"); [|done].
    rewrite scan_sign_app by done. simpl.
    rewrite span_digits_app by done. simpl.
    by destruct (String.eqb _ "").
Qed.

Lemma prefix_app_ws pat u t :
  no_ws pat = true → all_ws t = true →
  String.prefix pat (u +:+ t) = String.prefix pat u
  ∧ (String.prefix pat u = true →
     JS.drop (String.length pat) (u +:+ t) = JS.drop (String.length pat) u +:+ t).
Proof.
  intros Hpat Ht. revert u.
  induction pat as [|a pat IH]; intros u; [by destruct u, t|].
  simpl in Hpat. apply andb_true_iff in Hpat as [Ha Hpat].
  apply negb_true_iff in Ha.
  destruct u as [|b u]; simpl.
  - split; [|done]. destruct t as [|w t]; [done|]. simpl in *.
    apply andb_true_iff in Ht as [Hw _].
    destruct (ascii_dec a w) as [->|]; [congruence|done].
  - destruct (ascii_dec a b); [by apply IH|done].
Qed.

Lemma prefix_Infinity_app u t :
  all_ws t = true →
  String.prefix "Infinity" (u +:+ t) = String.prefix "Infinity" u
  ∧ (String.prefix "Infinity" u = true → JS.drop 8 (u +:+ t) = JS.drop 8 u +:+ t).
Proof. intros Ht. by apply (prefix_app_ws "Infinity"). Qed.

Lemma scan_unsigned_app u t :
  all_ws t = true →
  Num.scan_unsigned (u +:+ t)
  = (λ lr, (lr.1, lr.2 +:+ t)) <$> Num.scan_unsigned u.
Proof.
  intros Ht. unfold Num.scan_unsigned.
  destruct (prefix_Infinity_app u t Ht) as [-> Hdrop].
  destruct (String.prefix "Infinity" u); [by rewrite Hdrop|].
  rewrite span_digits_app by done. simpl.
  destruct (Num.span_digits u) as [ip r1]. simpl.
  rewrite scan_exponent_app by done.
  destruct r1 as [|c r2]; simpl.
  - destruct t as [|w t']; [by destruct (String.eqb ip "")|].
    assert (Hw : Ascii.eqb w "." = false).
    { simpl in Ht. apply andb_true_iff in Ht as [Hw _].
      destruct (is_ws_cases w Hw) as (_ & _ & _ & _ & _ & Hdot & _).
      by apply Ascii.eqb_neq. }
    rewrite Hw. by destruct (String.eqb ip "").
  - destruct (Ascii.eqb c ".").
    + rewrite span_digits_app by done. simpl.
      destruct (String.eqb ip "" && String.eqb _ ""); [done|].
      by rewrite scan_exponent_app.
    + by destruct (String.eqb ip "").
Qed.

Lemma scan_decimal_app u t :
  all_ws t = true →
  Num.scan_decimal (u +:+ t)
  = (λ xr, (xr.1, xr.2 +:+ t)) <$> Num.scan_decimal u.
Proof.
  intros Ht. unfold Num.scan_decimal.
  rewrite scan_sign_app by done. simpl.
  rewrite scan_unsigned_app by done.
  by destruct (Num.scan_unsigned _) as [[l rest]|].
Qed.

(** White space around a text does not change what [parseFloat] returns. *)
Lemma parseFloat_padding lead s trail :
  all_ws lead = true → all_ws trail = true →
  Num.parseFloat (lead +:+ s +:+ trail) = Num.parseFloat s.
Proof.
  intros Hlead Htrail. unfold Num.parseFloat.
  rewrite trimStart_app_ws by done.
  destruct (all_ws s) eqn:Hs.
  - rewrite !trimStart_all_ws; [done..|]. by rewrite all_ws_app, Hs, Htrail.
  - rewrite trimStart_app_nonblank by done.
    rewrite scan_decimal_app by done.
    by destruct (Num.scan_decimal _) as [[x rest]|].
Qed.

End NumberPadding.

(** ** Decimal text: [parseFloat] against [Number] *)

Section DecimalText.

Implicit Types (s : string) (c : ascii).

Lemma trimStart_decompose s :
  ∃ lead, all_ws lead = true ∧ s = lead +:+ JS.trimStart s.
Proof.
  induction s as [|c s (lead & Hlead & IH)]; [by exists ""|].
  simpl. destruct (JS.is_ws c) eqn:Hc.
  - exists (String c lead). simpl. rewrite Hc, Hlead. split; [done|]. by rewrite <- IH.
  - by exists "".
Qed.

Lemma trimEnd_decompose s :
  ∃ trail, all_ws trail = true ∧ s = JS.trimEnd s +:+ trail.
Proof.
  induction s as [|c s (trail & Htrail & IH)]; [by exists ""|].
  simpl. destruct (JS.trimEnd s) as [|c' r] eqn:Hend.
  - simpl in IH. subst s. destruct (JS.is_ws c) eqn:Hc.
    + exists (String c trail). simpl. by rewrite Hc, Htrail.
    + by exists trail.
  - exists trail. split; [done|]. simpl. f_equal. exact IH.
Qed.

Lemma trimStart_trim s : JS.trimStart (JS.trim s) = JS.trim s.
Proof.
  unfold JS.trim. destruct (trimStart_decompose s) as (lead & Hlead & Hs).
  assert (Hhead : ∀ c r, JS.trimStart s = String c r → JS.is_ws c = false).
  { clear. induction s as [|c' s IH]; intros c r; simpl; [done|].
    destruct (JS.is_ws c') eqn:Hc'; [by apply IH|]. by intros [= <- _]. }
  destruct (JS.trimStart s) as [|c r]; [done|].
  specialize (Hhead c r eq_refl). simpl.
  destruct (JS.trimEnd r); rewrite ?Hhead; simpl; by rewrite Hhead.
Qed.

(** A text is its trimmed part with white space before and after. *)
Lemma trim_decompose s :
  ∃ lead trail, all_ws lead = true ∧ all_ws trail = true
                ∧ s = lead +:+ JS.trim s +:+ trail.
Proof.
  destruct (trimStart_decompose s) as (lead & Hlead & Hs).
  destruct (trimEnd_decompose (JS.trimStart s)) as (trail & Htrail & Ht).
  exists lead, trail. split_and!; [done..|].
  unfold JS.trim. by rewrite <- Ht.
Qed.


End DecimalText.

(** ** parsePoints *)

(** C6.  [parsePoints] trims its input, cuts it at runs of white space,
    cuts every token at its commas and converts every piece with
    [Number]: for tokens separated by non-empty gaps of white space, with
    white space allowed before and after, the result has one row per
    token, in order, the row of a token being its comma-separated pieces
    converted one by one, so a row has one entry more than its token has
    commas.  ["0,0 10,10 20,0"] gives [[0,0],[10,10],[20,0]].  The result
    is always a value: a piece that is not a numeric literal gives the
    entry NaN, as in ["1,x 2"], which gives [[1,NaN],[2]]. *)
Theorem parsePoints_spec :
  (∀ points, parsePoints points
             = map (λ p, map Num.Number (JS.split "," p))
                   (JS.split_ws (JS.trim points)))
  ∧ (∀ lead trail first rest,
       all_ws lead = true → all_ws trail = true →
       is_token first = true →
       Forall (λ gt, is_gap gt.1 = true ∧ is_token gt.2 = true) rest →
       let points := lead +:+ join_points first rest +:+ trail in
       parsePoints points
       = map (λ tok, map Num.Number (JS.split "," tok)) (first :: rest.*2)
       ∧ map length (parsePoints points)
         = map (λ tok, S (count_char "," tok)) (first :: rest.*2))
  ∧ parsePoints "0,0 10,10 20,0"
    = [ [Num.of_Z 0; Num.of_Z 0];
        [Num.of_Z 10; Num.of_Z 10];
        [Num.of_Z 20; Num.of_Z 0] ]
  ∧ parsePoints "1,x 2" = [ [Num.of_Z 1; Num.NaN]; [Num.of_Z 2] ]
  ∧ parsePoints "1,2,3 4" = [ [Num.of_Z 1; Num.of_Z 2; Num.of_Z 3]; [Num.of_Z 4] ].
Proof.
  split_and!; [done| |by vm_compute..].
  intros lead trail first rest Hlead Htrail Hfirst Hrest points.
  assert (Hrows : parsePoints points
                  = map (λ tok, map Num.Number (JS.split "," tok)) (first :: rest.*2)).
  { unfold parsePoints, points, JS.split_ws.
    by rewrite trim_join, split_ws_from_join. }
  split; [done|].
  rewrite Hrows, <- list_fmap_compose. apply list_fmap_ext.
  intros _ tok _. simpl. by rewrite length_map, split_length.
Qed.

(** C10.  On the empty string and on a string of white space only,
    [parsePoints] does not return the empty sequence: trimming leaves the
    empty string, which splits into the single empty token, whose single
    piece converts to 0, so the result is [[0]]. *)
Theorem parsePoints_blank (points : string) :
  all_ws points = true →
  JS.split_ws (JS.trim points) = [""]
  ∧ Num.Number "" = Num.of_Z 0
  ∧ parsePoints points = [[Num.of_Z 0]]
  ∧ parsePoints points ≠ [].
Proof.
  intros Hblank. unfold parsePoints. rewrite trim_blank by done.
  by split_and!.
Qed.

(** ** Records built by [reduce] *)

Section Reduce.

Context {V : Type} (f : string → V).

Lemma reduce_lookup (attrs : list string) (acc : gmap string V) (k : string) :
  foldl (λ acc attr, <[attr := f attr]> acc) acc attrs !! k
  = if decide (k ∈ attrs) then Some (f k) else acc !! k.
Proof.
  revert acc. induction attrs as [|a attrs IH]; intros acc; simpl.
  - done.
  - rewrite IH. destruct (decide (k ∈ attrs)) as [Hin|Hout].
    + rewrite decide_True; [done|]. by right.
    + destruct (decide (a = k)) as [->|Hne].
      * rewrite decide_True by left. apply lookup_insert_eq.
      * rewrite lookup_insert_ne by done.
        rewrite decide_False; [done|]. intros [?|?]%elem_of_cons; congruence.
Qed.

Lemma reduce_dom (attrs : list string) (acc : gmap string V) :
  dom (foldl (λ acc attr, <[attr := f attr]> acc) acc attrs)
  = list_to_set attrs ∪ dom acc.
Proof.
  apply set_eq. intros k.
  rewrite elem_of_dom, reduce_lookup, elem_of_union, elem_of_list_to_set, elem_of_dom.
  destruct (decide (k ∈ attrs)) as [Hin|Hout].
  - split; [by left|by eauto].
  - split; [by right|by intros [?|?]].
Qed.

End Reduce.

(** ** getShapeAttributes *)

Section ShapeAttributes.

Implicit Types (element : Element) (attrs : list string).

Lemma attributesMap_not_inherited shapeType attrs :
  attributesMap !! shapeType = Some attrs →
  shapeType ≠ "path" ∧ get_property attributesMap shapeType = Own attrs.
Proof.
  intros Hlook. split.
  - intros ->. by vm_compute in Hlook.
  - unfold get_property. by rewrite Hlook.
Qed.

(** The tags of the table: the record has the keys of the table entry,
    each resolved by the body of [reduce]. *)
Lemma getShapeAttributes_listed element attrs :
  attributesMap !! JS.toLowerCase (tagName element) = Some attrs →
  ∃ acc, getShapeAttributes element = Return (AttributeRecord acc)
         ∧ dom acc = list_to_set attrs
         ∧ ∀ attr, attr ∈ attrs → acc !! attr = Some (resolve_attribute element attr).
Proof.
  intros [Hpath Hown]%attributesMap_not_inherited.
  unfold getShapeAttributes. rewrite Hown.
  apply String.eqb_neq in Hpath. rewrite Hpath. simpl.
  eexists; split_and!; [done| |].
  - by rewrite reduce_dom, dom_empty_L, union_empty_r_L.
  - intros attr Hin. by rewrite reduce_lookup, decide_True.
Qed.

Lemma getShapeAttributes_path element :
  JS.toLowerCase (tagName element) = "path" →
  getShapeAttributes element = Return (PathData (getAttribute element "d")).
Proof. intros Htag. unfold getShapeAttributes. by rewrite Htag. Qed.

(** A tag outside the table gives the empty record as long as its
    lower-cased name is not the name of a member of
    [Object.prototype]; for such a name the call raises. *)
Lemma getShapeAttributes_unlisted element :
  attributesMap !! JS.toLowerCase (tagName element) = None →
  JS.toLowerCase (tagName element) ≠ "path" →
  getShapeAttributes element
  = if bool_decide (JS.toLowerCase (tagName element) ∈ Object_prototype_keys)
    then Throw TypeError
    else Return (AttributeRecord ∅).
Proof.
  intros Hnone Hpath%String.eqb_neq.
  unfold getShapeAttributes, get_property. rewrite Hnone, Hpath.
  by destruct (bool_decide _).
Qed.

End ShapeAttributes.

(** C4.  [getShapeAttributes] returns a record keyed by the table entry
    for the six shape tags ([getShapeAttributes_listed]) and the text of
    [d] for a path ([getShapeAttributes_path]); any other tag is meant to
    give the empty record ([getShapeAttributes_unlisted]).  An element
    named [constructor] is neither in the table nor a path, yet the call
    raises a TypeError instead of returning the empty record: looking the
    name up in the table finds the member inherited from
    [Object.prototype], which has no [reduce]. *)
Theorem getShapeAttributes_constructor :
  let element := mkElement "constructor" ∅ [] in
  attributesMap !! JS.toLowerCase (tagName element) = None
  ∧ JS.toLowerCase (tagName element) ≠ "path"
  ∧ getShapeAttributes element = Throw TypeError
  ∧ getShapeAttributes element ≠ Return (AttributeRecord ∅).
Proof.
  split_and!; try (vm_compute; reflexivity); vm_compute; discriminate.
Qed.


(** ** parseGradient *)

Section Gradient.

Implicit Types (gradient stop : Element) (s t pat : string).

Lemma prefix_split pat s :
  String.prefix pat s = true →
  s = pat +:+ JS.drop (String.length pat) s.
Proof.
  revert s. induction pat as [|c pat IH]; intros s; [done|].
  destruct s as [|c' s]; simpl; [done|].
  destruct (ascii_dec c c') as [->|]; [|done].
  intros Hpre. by rewrite <- IH.
Qed.

Lemma prefix_app pat q : String.prefix pat (pat +:+ q) = true.
Proof.
  induction pat as [|c pat IH]; simpl; [by destruct q|].
  by destruct (ascii_dec c c).
Qed.

(** Removing the first occurrence is removing the suffix when the
    pattern occurs at the end only. *)
Lemma remove_first_suffix pat s :
  pat ≠ "" →
  (∀ p q, s = p +:+ pat +:+ q → q = "") →
  JS.remove_first pat s = remove_suffix pat s.
Proof.
  intros Hpat. induction s as [|c s IH]; intros Hend.
  - destruct pat; [done|]. reflexivity.
  - assert (Htail : ∀ p q, s = p +:+ pat +:+ q → q = "").
    { intros p q ->. by apply (Hend (String c p) q). }
    cbn [JS.remove_first remove_suffix].
    destruct (String.prefix pat (String c s)) eqn:Hpre.
    + apply prefix_split in Hpre.
      pose proof (Hend "" _ Hpre) as Hq. rewrite Hq.
      rewrite Hq, string_app_nil_r in Hpre.
      by rewrite Hpre, String.eqb_refl.
    + destruct (String.eqb_spec (String c s) pat) as [Heq|_].
      * pose proof (prefix_app pat "") as Hrefl.
        rewrite string_app_nil_r, <- Heq in Hrefl. congruence.
      * by rewrite IH.
Qed.

(** The tables have no entry under a name of [Object.prototype]. *)
Lemma tables_prototype_keys :
  Forall (λ k, attributesMap !! k = None ∧ gradientAttributes !! k = None)
         Object_prototype_keys.
Proof. repeat (constructor; [by vm_compute|]). constructor. Qed.

Lemma parseGradient_Some gradient :
  parseGradient (Some gradient)
  = if bool_decide (tagName gradient ∈ Object_prototype_keys)
    then Throw TypeError
    else Return (Some
           {| type := JS.toLowerCase (JS.remove_first "Gradient" (tagName gradient));
              gradientDetails :=
                foldl (λ acc attr, <[attr := getAttribute gradient attr]> acc) ∅
                      (default [] (gradientAttributes !! tagName gradient));
              stops := map parse_stop (getElementsByTagName gradient "stop") |}).
Proof.
  unfold parseGradient, get_property.
  destruct (gradientAttributes !! tagName gradient) as [attrs|] eqn:Hlook; simpl.
  - rewrite bool_decide_eq_false_2; [done|].
    intros Hin. pose proof tables_prototype_keys as Hkeys.
    rewrite Forall_forall in Hkeys. destruct (Hkeys _ Hin) as [_ Hnone].
    congruence.
  - by destruct (bool_decide _).
Qed.

(** A call on an element returns a record or raises; it never returns
    [null]. *)
Lemma parseGradient_Some_inv gradient o :
  parseGradient (Some gradient) = Return o → ∃ r, o = Some r.
Proof.
  rewrite parseGradient_Some. destruct (bool_decide _); [done|].
  intros [= <-]. by eauto.
Qed.

End Gradient.

(** C9.  For a gradient element, [parseGradient] returns a record whose
    [stops] are the [stop] elements below the gradient, at any depth and
    in document order, each turned into its offset and colour, the
    offset being 0 and the colour ["#000000"] when the attribute is
    absent and the text of the attribute when it is there and not empty;
    without such elements [stops] is empty.  The [type] is the tag name
    without its final ["Gradient"], in lower case, and the geometry
    attributes listed for the tag are read as they are.  On an absent input
    the result is [null].  A gradient element is taken to be an element
    whose tag name has ["Gradient"] at its end or nowhere and is not the
    name of a member of [Object.prototype]. *)
Theorem parseGradient_spec :
  (∀ gradient, gradient_tag (tagName gradient) →
     ∃ r, parseGradient (Some gradient) = Return (Some r)
       ∧ stops r = map parse_stop
                       (filter (λ e, tagName e = "stop") (descendants gradient))
       ∧ (filter (λ e, tagName e = "stop") (descendants gradient) = [] → stops r = [])
       ∧ type r = JS.toLowerCase (remove_suffix "Gradient" (tagName gradient))
       ∧ (∀ attr, attr ∈ default [] (gradientAttributes !! tagName gradient) →
                  gradientDetails r !! attr = Some (getAttribute gradient attr))
       ∧ dom (gradientDetails r)
         = list_to_set (default [] (gradientAttributes !! tagName gradient)))
  ∧ (∀ stop,
       (getAttribute stop "offset" = None →
        offset (parse_stop stop) = OffsetNumber (Num.of_Z 0))
       ∧ (getAttribute stop "stop-color" = None →
          color (parse_stop stop) = "#000000")
       ∧ (∀ v, getAttribute stop "offset" = Some v → v ≠ "" →
               offset (parse_stop stop) = OffsetString v)
       ∧ (∀ v, getAttribute stop "stop-color" = Some v → v ≠ "" →
               color (parse_stop stop) = v))
  ∧ parseGradient None = Return None
  ∧ parseGradient
      (Some (mkElement "linearGradient" {[ "x1" := "0" ]}
               [ mkElement "stop" {[ "offset" := "0.5"; "stop-color" := "red" ]} [];
                 mkElement "g" ∅ [ mkElement "stop" ∅ [] ];
                 mkElement "stop" {[ "offset" := "1" ]} [] ]))
    = Return (Some {| type := "linear";
                      gradientDetails :=
                        {[ "x1" := Some "0"; "y1" := None; "x2" := None; "y2" := None ]};
                      stops := [ mkStop (OffsetString "0.5") "red";
                                 mkStop (OffsetNumber (Num.of_Z 0)) "#000000";
                                 mkStop (OffsetString "1") "#000000" ] |})
  ∧ parseGradient (Some (mkElement "radialGradient" {[ "cx" := "50%" ]} []))
    = Return (Some {| type := "radial";
                      gradientDetails :=
                        {[ "cx" := Some "50%"; "cy" := None; "r" := None;
                           "fx" := None; "fy" := None ]};
                      stops := [] |}).
Proof.
  split_and!; [| |done|by vm_compute..].
  - intros gradient [Hproto Hend].
    rewrite parseGradient_Some, bool_decide_eq_false_2 by done.
    eexists; split; [done|]. simpl. split_and!; [done| | | |].
    + unfold getElementsByTagName. by intros ->.
    + by rewrite remove_first_suffix.
    + intros attr Hin. by rewrite reduce_lookup, decide_True.
    + by rewrite reduce_dom, dom_empty_L, union_empty_r_L.
  - intros stop. unfold parse_stop, attribute_or. simpl. split_and!.
    + by intros ->.
    + by intros ->.
    + intros v -> Hv%String.eqb_neq. by rewrite Hv.
    + intros v -> Hv%String.eqb_neq. by rewrite Hv.
Qed.

(** ** getStyleAttributes *)

Section Styles.

Variables ownerDocument element : Element.

Implicit Types (styles : gmap string StyleValue) (attr k value : string).

Lemma bind_Return {A B : Type} (m : completion A) (f : A → completion B) (b : B) :
  m ≫= f = Return b → ∃ a, m = Return a ∧ f a = Return b.
Proof. destruct m as [a|e]; [by eauto|done]. Qed.

(** A value that starts with [url(] is neither empty nor [none]. *)
Lemma startsWith_url value :
  JS.startsWith value "url(" = true →
  String.eqb value "" || String.eqb value "none" = false.
Proof.
  intros Hurl. apply orb_false_iff.
  split; apply String.eqb_neq; intros ->; by vm_compute in Hurl.
Qed.

(** One turn of the loop writes under its own attribute name only. *)
Lemma style_step_other styles styles' attr k :
  style_step ownerDocument element styles attr = Return styles' →
  k ≠ attr → styles' !! k = styles !! k.
Proof.
  unfold style_step. intros Hstep Hne.
  destruct (getAttribute element attr) as [value|]; [|by inversion Hstep].
  destruct (_ || _); [by inversion Hstep|].
  destruct (JS.startsWith value "url(").
  - destruct (match_gradient_id value) as [gradientId|]; [|by inversion Hstep].
    destruct (String.eqb gradientId ""); [by inversion Hstep|].
    destruct (getElementById _ _) as [gradient|]; [|by inversion Hstep].
    apply bind_Return in Hstep as (g & _ & [= <-]).
    by rewrite lookup_insert_ne.
  - apply bind_Return in Hstep as (present & _ & [= <-]).
    destruct present; [done|]. by rewrite lookup_insert_ne.
Qed.

Lemma forEach_other (l : list string) styles styles' k :
  forEach (style_step ownerDocument element) l styles = Return styles' →
  k ∉ l → styles' !! k = styles !! k.
Proof.
  revert styles. induction l as [|a l IH]; intros styles; simpl.
  - by intros [= <-].
  - intros (s1 & Hstep & Hrest)%bind_Return [Hne Hout]%not_elem_of_cons.
    rewrite (IH _ Hrest Hout). by eapply style_step_other.
Qed.

(** What the loop leaves under an attribute name is what the turn for
    that attribute wrote, and that turn found there what the inline
    pass had left. *)
Lemma forEach_at (l : list string) styles styles' attr :
  NoDup l → attr ∈ l →
  forEach (style_step ownerDocument element) l styles = Return styles' →
  ∃ before after,
    style_step ownerDocument element before attr = Return after
    ∧ before !! attr = styles !! attr
    ∧ styles' !! attr = after !! attr.
Proof.
  intros Hnodup. revert styles.
  induction Hnodup as [|a l Hfresh Hnodup IH]; intros styles Hin; simpl.
  - by apply elem_of_nil in Hin.
  - intros (s1 & Hstep & Hrest)%bind_Return.
    destruct (decide (attr = a)) as [->|Hne].
    + exists styles, s1. split_and!; [done..|].
      by eapply forEach_other.
    + apply elem_of_cons in Hin as [?|Hin]; [done|].
      destruct (IH s1 Hin Hrest) as (before & after & Hturn & Hbefore & Hafter).
      exists before, after. split_and!; [done| |done].
      rewrite Hbefore. by eapply style_step_other.
Qed.

Lemma style_attributes_NoDup : NoDup style_attributes.
Proof. apply (bool_decide_unpack _). by vm_compute. Qed.

Lemma getStyleAttributes_at styles attr :
  getStyleAttributes ownerDocument element = Return styles →
  attr ∈ style_attributes →
  ∃ before after,
    style_step ownerDocument element before attr = Return after
    ∧ before !! attr = inline_styles element !! attr
    ∧ styles !! attr = after !! attr.
Proof.
  intros Hret Hin. eapply forEach_at; [apply style_attributes_NoDup|done..].
Qed.

End Styles.

Section GradientReference.

Implicit Types (s id : string).

Lemma to_last_paren_closing s :
  no_line_terminator s = true → to_last_paren (s +:+ ")") = Some s.
Proof.
  induction s as [|c s IH]; simpl; [done|].
  intros [Hc Hs]%andb_true_iff. apply negb_true_iff in Hc.
  by rewrite Hc, IH.
Qed.

(** On a value that is exactly a reference to [id], the pattern
    captures [id]. *)
Lemma match_gradient_id_url id :
  no_line_terminator id = true →
  match_gradient_id ("url(#" +:+ id +:+ ")") = Some id.
Proof. intros Hid. simpl. by rewrite to_last_paren_closing. Qed.

End GradientReference.

(** The loop on a reference, in terms of the text the pattern captures.
    Let an allow-listed attribute of the element have a value that
    starts with [url(], and let the call return the record [styles].  If
    the pattern captures a non-empty id and the owning document has an
    element with that id, the gradient record parsed from that element is
    what [styles] holds under the attribute name, whatever the inline
    style had put there.  If no id is captured, or the captured id is
    empty, or the document has no element with that id, [styles] holds
    under the attribute name exactly what the inline pass left there
    (nothing, or the inline value).  On a value of the exact form
    [url(#id)] the captured id is [id]. *)
Theorem getStyleAttributes_gradient :
  (∀ ownerDocument element styles attr value,
     getStyleAttributes ownerDocument element = Return styles →
     attr ∈ style_attributes →
     getAttribute element attr = Some value →
     JS.startsWith value "url(" = true →
     (∀ gradientId gradient,
        match_gradient_id value = Some gradientId → gradientId ≠ "" →
        getElementById ownerDocument gradientId = Some gradient →
        ∃ r, parseGradient (Some gradient) = Return (Some r)
             ∧ styles !! attr = Some (SGradient r))
     ∧ (match_gradient_id value = None
        ∨ match_gradient_id value = Some ""
        ∨ (∃ gradientId, match_gradient_id value = Some gradientId
                         ∧ getElementById ownerDocument gradientId = None) →
        styles !! attr = inline_styles element !! attr))
  ∧ (∀ id, no_line_terminator id = true →
           match_gradient_id ("url(#" +:+ id +:+ ")") = Some id).
Proof.
  split; [|apply match_gradient_id_url].
  intros ownerDocument element styles attr value Hret Hin Hattr Hurl.
  destruct (getStyleAttributes_at _ _ _ _ Hret Hin)
    as (before & after & Hturn & Hbefore & Hafter).
  unfold style_step in Hturn.
  rewrite Hattr, (startsWith_url _ Hurl), Hurl in Hturn.
  rewrite Hafter, <- Hbefore. clear Hafter Hbefore Hret. split.
  - intros gradientId gradient Hid Hne%String.eqb_neq Hfound.
    rewrite Hid, Hne, Hfound in Hturn.
    apply bind_Return in Hturn as (g & Hparse & [= <-]).
    destruct (parseGradient_Some_inv _ _ Hparse) as [r ->].
    exists r. split; [done|]. apply lookup_insert_eq.
  - intros [Hid|[Hid|(gradientId & Hid & Hmissing)]]; rewrite Hid in Hturn.
    + by inversion Hturn.
    + by inversion Hturn.
    + destruct (String.eqb gradientId ""); [by inversion Hturn|].
      rewrite Hmissing in Hturn. by inversion Hturn.
Qed.

(** C7.  Let the call return the record [styles].  For an allow-listed
    attribute whose value is not empty, not [none] and does not start
    with [url(], [styles] holds the attribute value under the attribute
    name when the inline pass left nothing there, and keeps what the
    inline pass left otherwise.  Under a name outside the allow-list
    [styles] holds what the inline pass left and nothing else.  An
    element with [style="fill:red;stroke:blue"] and [fill="green"] gives
    fill red and stroke blue. *)
Theorem getStyleAttributes_plain :
  (∀ ownerDocument element styles,
     getStyleAttributes ownerDocument element = Return styles →
     (∀ attr value,
        attr ∈ style_attributes →
        getAttribute element attr = Some value →
        value ≠ "" → value ≠ "none" → JS.startsWith value "url(" = false →
        (inline_styles element !! attr = None →
         styles !! attr = Some (SString value))
        ∧ (∀ v, inline_styles element !! attr = Some v → styles !! attr = Some v))
     ∧ (∀ k, k ∉ style_attributes → styles !! k = inline_styles element !! k))
  ∧ (∀ ownerDocument,
       getStyleAttributes ownerDocument
         (mkElement "rect" {[ "style" := "fill:red;stroke:blue"; "fill" := "green" ]} [])
       = Return {[ "fill" := SString "red"; "stroke" := SString "blue" ]}).
Proof.
  split; [|intros ownerDocument; vm_compute; reflexivity].
  intros ownerDocument element styles Hret. split.
  - intros attr value Hin Hattr Hne%String.eqb_neq Hnone%String.eqb_neq Hurl.
    destruct (getStyleAttributes_at _ _ _ _ Hret Hin)
      as (before & after & Hturn & Hbefore & Hafter).
    unfold style_step, call_hasOwnProperty in Hturn.
    rewrite Hattr, Hne, Hnone, Hurl in Hturn. simpl in Hturn.
    destruct (before !! "hasOwnProperty"); [done|]. simpl in Hturn.
    rewrite Hafter, <- Hbefore. clear Hafter Hbefore Hret.
    injection Hturn as <-. split.
    + intros Hfree. rewrite bool_decide_eq_false_2.
      * apply lookup_insert_eq.
      * rewrite Hfree. by intros [? ?].
    + intros v Hset. rewrite bool_decide_eq_true_2; [done|]. by rewrite Hset.
  - intros k Hout. by eapply forEach_other.
Qed.

(** ** The inline pass *)

Section InlinePass.

Implicit Types (s p v seg : string) (entries : list (list string)).

Lemma split_no_sep sep s : count_char sep s = 0 → JS.split sep s = [s].
Proof.
  induction s as [|c s IH]; simpl; [done|].
  destruct (Ascii.eqb c sep); [done|]. intros Hs. by rewrite IH.
Qed.

(** A segment with one colon is cut into the text before the colon and
    the text after it. *)
Lemma split_single_colon seg p v :
  split_first ":" seg = Some (p, v) → count_char ":" v = 0 →
  JS.split ":" seg = [p; v].
Proof.
  revert p. induction seg as [|c seg IH]; intros p; simpl; [done|].
  destruct (Ascii.eqb c ":").
  - intros [= <- <-] Hv. by rewrite split_no_sep.
  - destruct (split_first ":" seg) as [[p' v']|]; [|done].
    intros [= <- <-] Hv. by rewrite (IH p' eq_refl Hv).
Qed.

Lemma inline_entry_single_colon seg p v :
  split_first ":" seg = Some (p, v) → count_char ":" v = 0 →
  map JS.trim (JS.split ":" seg) = [JS.trim p; JS.trim v].
Proof. intros Hcut Hv. by rewrite (split_single_colon _ _ _ Hcut Hv). Qed.

(** Entries are taken from left to right, a later one replacing an
    earlier one with the same key. *)
Lemma fromEntries_snoc entries entry :
  fromEntries (entries ++ [entry])
  = <[ default "undefined" (entry !! 0%nat)
       := from_option SString SUndefined (entry !! 1%nat) ]> (fromEntries entries).
Proof. unfold fromEntries. by rewrite foldl_app. Qed.

End InlinePass.

(** C8.  The inline pass cuts the style text at semicolons, drops the
    empty segments, and keeps later entries over earlier ones, but it
    does not cut a segment at its first colon only: the segment is cut at
    every colon and the second piece alone becomes the value.  For
    [style="fill:a:b"] the claim gives the pair of [fill] and [a:b],
    and the source stores [a] under [fill]. *)
Theorem inline_styles_second_colon :
  let element := mkElement "rect" {[ "style" := "fill:a:b" ]} [] in
  split_first ":" "fill:a:b" = Some ("fill", "a:b")
  ∧ inline_entries "fill:a:b" = [["fill"; "a"; "b"]]
  ∧ inline_styles element = {[ "fill" := SString "a" ]}
  ∧ inline_styles element !! "fill" ≠ Some (SString "a:b")
  ∧ (∀ ownerDocument,
       getStyleAttributes ownerDocument element = Return {[ "fill" := SString "a" ]}).
Proof.
  split_and!; try (vm_compute; reflexivity);
    try (vm_compute; discriminate);
    intros ownerDocument; vm_compute; reflexivity.
Qed.

(** ** Calls that raise *)

Section Raise.

Implicit Types (ownerDocument element gradient : Element).

(** [getShapeAttributes] raises exactly on the tags whose lower-cased
    name is a member of [Object.prototype]. *)
Lemma getShapeAttributes_raises element :
  getShapeAttributes element = Throw TypeError
  ↔ JS.toLowerCase (tagName element) ∈ Object_prototype_keys.
Proof.
  destruct (attributesMap !! JS.toLowerCase (tagName element)) as [attrs|] eqn:Hlook.
  - destruct (getShapeAttributes_listed _ _ Hlook) as (acc & -> & _).
    split; [done|]. intros Hin. pose proof tables_prototype_keys as Hkeys.
    rewrite Forall_forall in Hkeys. destruct (Hkeys _ Hin) as [Hnone _].
    congruence.
  - destruct (decide (JS.toLowerCase (tagName element) = "path")) as [Hpath|Hpath].
    + rewrite getShapeAttributes_path by done. rewrite Hpath.
      split; [done|]. intros Hin.
      apply (bool_decide_eq_true_2 _) in Hin. by vm_compute in Hin.
    + rewrite getShapeAttributes_unlisted by done.
      case_bool_decide; [done|]. by split.
Qed.

Lemma parseGradient_raises (gradient : option Element) :
  parseGradient gradient = Throw TypeError
  ↔ ∃ g, gradient = Some g ∧ tagName g ∈ Object_prototype_keys.
Proof.
  destruct gradient as [g|]; [|by split; [|intros (? & ? & ?)]].
  rewrite parseGradient_Some. case_bool_decide.
  - split; [by eauto|done].
  - split; [done|]. by intros (? & [= <-] & ?).
Qed.

Lemma getElementById_descendant ownerDocument id gradient :
  getElementById ownerDocument id = Some gradient →
  gradient ∈ descendants_or_self ownerDocument.
Proof.
  unfold getElementById. intros Hhead.
  assert (Hin : gradient ∈ filter (λ e, getAttribute e "id" = Some id)
                                  (descendants_or_self ownerDocument)).
  { destruct (filter _ _) as [|x xs]; [done|].
    injection Hhead as ->. left. }
  by apply list_elem_of_filter in Hin as [_ ?].
Qed.

(** [getStyleAttributes] returns when the inline style declares no
    property named [hasOwnProperty] and no element of the owning
    document has a tag named like a member of [Object.prototype]. *)
Lemma getStyleAttributes_returns ownerDocument element :
  inline_styles element !! "hasOwnProperty" = None →
  Forall (λ g, tagName g ∉ Object_prototype_keys)
         (descendants_or_self ownerDocument) →
  ∃ styles, getStyleAttributes ownerDocument element = Return styles.
Proof.
  intros Hinline Hdoc. unfold getStyleAttributes.
  assert (Hattrs : Forall (λ attr, attr ≠ "hasOwnProperty") style_attributes).
  { by repeat constructor. }
  revert Hinline Hattrs.
  generalize (inline_styles element) as styles, style_attributes as l.
  intros styles l. revert styles.
  induction l as [|attr l IH]; intros styles Hfree Hattrs; simpl; [by eauto|].
  apply Forall_cons in Hattrs as [Hattr Hattrs].
  assert (Hstep : ∃ styles', style_step ownerDocument element styles attr = Return styles'
                             ∧ styles' !! "hasOwnProperty" = None).
  { unfold style_step, call_hasOwnProperty.
    destruct (getAttribute element attr) as [value|]; [|by eauto].
    destruct (_ || _); [by eauto|].
    destruct (JS.startsWith value "url(").
    - destruct (match_gradient_id value) as [gradientId|]; [|by eauto].
      destruct (String.eqb gradientId ""); [by eauto|].
      destruct (getElementById _ _) as [gradient|] eqn:Hfound; [|by eauto].
      apply getElementById_descendant in Hfound.
      rewrite Forall_forall in Hdoc. specialize (Hdoc _ Hfound).
      rewrite parseGradient_Some, bool_decide_eq_false_2 by done. simpl.
      eexists; split; [done|]. by rewrite lookup_insert_ne.
    - rewrite Hfree. simpl. destruct (bool_decide _); [by eauto|].
      eexists; split; [done|]. by rewrite lookup_insert_ne. }
  destruct Hstep as (styles' & -> & Hfree'). simpl. by apply IH.
Qed.

End Raise.

(** C2.  [flattenShapes] and [parsePoints] are total and
    [parseGradient] returns [null] on an absent input, but three of the
    exported functions raise on well-formed elements: [getStyleAttributes]
    when the inline style declares a property named [hasOwnProperty] and
    a plain presentation attribute is present, [getShapeAttributes] on an
    element named [constructor], and [parseGradient] on an element named
    [toString]. *)
Theorem exported_functions_raise :
  (∀ ownerDocument,
     getStyleAttributes ownerDocument
       (mkElement "rect" {[ "style" := "hasOwnProperty:1"; "fill" := "red" ]} [])
     = Throw TypeError)
  ∧ getShapeAttributes (mkElement "constructor" ∅ []) = Throw TypeError
  ∧ parseGradient (Some (mkElement "toString" ∅ [])) = Throw TypeError
  ∧ parseGradient None = Return None.
Proof.
  split_and!; try (vm_compute; reflexivity);
    intros ownerDocument; vm_compute; reflexivity.
Qed.

(** ** The statements at the sample document *)

Lemma flattenShapes_spec_witness :
  flattenShapes [sample_circle; sample_group; sample_gradient]
  = [sample_circle; sample_rect; sample_circle; sample_gradient]
  ∧ flattenShapes [sample_rect; mkElement "g" ∅ [sample_circle; sample_circle]; sample_rect]
    = [sample_rect; sample_circle; sample_circle; sample_rect].
Proof.
  split.
  - change [sample_circle; sample_group; sample_gradient]
      with ([sample_circle] ++ [sample_group; sample_gradient]).
    destruct (flattenShapes_spec [sample_circle]) as (_ & _ & _ & Happ & _).
    rewrite Happ. reflexivity.
  - destruct (flattenShapes_spec []) as (_ & _ & _ & _ & Horder & _).
    apply Horder; reflexivity.
Defined.

Lemma parsePoints_spec_witness :
  parsePoints "  1,2   3,4,5  "
  = [ map Num.Number ["1"; "2"]; map Num.Number ["3"; "4"; "5"] ]
  ∧ map length (parsePoints "  1,2   3,4,5  ") = [2; 3].
Proof.
  destruct parsePoints_spec as (_ & Hrows & _).
  apply (Hrows "  " "  " "1,2" [("   ", "3,4,5")]); try reflexivity.
  repeat constructor.
Defined.

Lemma parsePoints_blank_witness :
  parsePoints "" = [[Num.of_Z 0]] ∧ parsePoints "   " = [[Num.of_Z 0]].
Proof.
  split.
  - apply (parsePoints_blank ""). reflexivity.
  - apply (parsePoints_blank "   "). reflexivity.
Defined.


Lemma parseGradient_spec_witness :
  ∃ r, parseGradient (Some sample_gradient) = Return (Some r)
       ∧ stops r = [ mkStop (OffsetString "0") "#fff"; mkStop (OffsetString "1") "#000000" ]
       ∧ type r = "linear".
Proof.
  destruct parseGradient_spec as (Hrecord & _).
  destruct (Hrecord sample_gradient) as (r & Hret & Hstops & _ & Htype & _).
  - split.
    + intros Hin. apply (bool_decide_eq_true_2 _) in Hin. discriminate Hin.
    + intros p q Htag. change (tagName sample_gradient) with "linearGradient" in Htag.
      repeat (destruct p as [|? p]; cbn in Htag;
              [by simplify_eq
              |first [discriminate Htag|injection Htag as _ Htag]]).
  - exists r. split; [exact Hret|]. split; [exact Hstops|exact Htype].
Defined.

Lemma getStyleAttributes_gradient_witness :
  ∃ styles r,
    getStyleAttributes sample_document sample_rect = Return styles
    ∧ inline_styles sample_rect !! "fill" = Some (SString "red")
    ∧ parseGradient (Some sample_gradient) = Return (Some r)
    ∧ styles !! "fill" = Some (SGradient r)
    ∧ styles !! "stroke" = Some (SString "blue").
Proof.
  pose (styles := match getStyleAttributes sample_document sample_rect with
                  | Return s => s
                  | Throw _ => ∅
                  end).
  assert (Hret : getStyleAttributes sample_document sample_rect = Return styles)
    by (vm_compute; reflexivity).
  destruct getStyleAttributes_gradient as (Hurl & _).
  destruct (Hurl sample_document sample_rect styles "fill" "url(#g1)" Hret)
    as (Hfound & _); [apply (bool_decide_unpack _); exact I|reflexivity..|].
  destruct (Hurl sample_document sample_rect styles "stroke" "url(#missing)" Hret)
    as (_ & Hmissing); [apply (bool_decide_unpack _); exact I|reflexivity..|].
  destruct (Hfound "g1" sample_gradient) as (r & Hparse & Hfill);
    [reflexivity|discriminate|reflexivity|].
  exists styles, r. split; [exact Hret|]. split; [reflexivity|].
  split; [exact Hparse|]. split; [exact Hfill|].
  rewrite Hmissing; [reflexivity|].
  right. right. exists "missing". split; reflexivity.
Defined.

Lemma getStyleAttributes_plain_witness :
  ∃ styles,
    getStyleAttributes sample_document sample_rect = Return styles
    ∧ styles !! "opacity" = Some (SString "0.5")
    ∧ styles !! "x" = None.
Proof.
  pose (styles := match getStyleAttributes sample_document sample_rect with
                  | Return s => s
                  | Throw _ => ∅
                  end).
  assert (Hret : getStyleAttributes sample_document sample_rect = Return styles)
    by (vm_compute; reflexivity).
  destruct getStyleAttributes_plain as (Hplain & _).
  destruct (Hplain sample_document sample_rect styles Hret) as (Hattr & Hother).
  exists styles. split; [exact Hret|]. split.
  - destruct (Hattr "opacity" "0.5") as (Hset & _);
      [apply (bool_decide_unpack _); exact I|reflexivity|discriminate..|reflexivity|].
    apply Hset. reflexivity.
  - rewrite (Hother "x"); [reflexivity|].
    intros Hin. apply (bool_decide_eq_true_2 _) in Hin. discriminate Hin.
Defined.

(** * Further properties *)

(** ** flattenShapes: which nodes come out *)

Section FlattenMembers.

Implicit Types (el g : Element) (elements : list Element).

Lemma flattenShapes_elem el elements :
  el ∈ flattenShapes elements ↔ ∃ e, e ∈ elements ∧ el ∈ flattenShapes [e].
Proof.
  unfold flattenShapes. rewrite list_elem_of_In, in_flat_map. simpl.
  setoid_rewrite app_nil_r. by setoid_rewrite list_elem_of_In.
Qed.

Lemma reached_mono elements1 elements2 el :
  (∀ x, x ∈ elements1 → reached elements2 x) →
  reached elements1 el → reached elements2 el.
Proof.
  intros Hsub Hreach. induction Hreach as [el Hin|g el _ IH Hg Hin].
  - by apply Hsub.
  - by eapply reached_child.
Qed.

Lemma flattenShapes_el_reached e el :
  el ∈ flattenShapes [e] → reached [e] el ∧ is_group el = false.
Proof.
  revert el. induction e as [tag attrs kids IH] using Element_tree_ind.
  intros el. rewrite flattenShapes_cons, app_nil_r.
  destruct (is_group _) eqn:Hg; simpl.
  - intros (k & Hk & Hel)%flattenShapes_elem.
    rewrite Forall_forall in IH. destruct (IH k Hk el Hel) as [Hreach Hshape].
    split; [|done]. eapply reached_mono; [|exact Hreach].
    intros x ->%list_elem_of_singleton.
    eapply reached_child; [apply reached_input; left|exact Hg|exact Hk].
  - intros ->%list_elem_of_singleton. split; [|done]. apply reached_input. left.
Qed.

Lemma reached_flattenShapes elements g el :
  reached elements g → el ∈ flattenShapes [g] → el ∈ flattenShapes elements.
Proof.
  intros Hreach. revert el.
  induction Hreach as [g Hin|g k _ IH Hg Hk]; intros el Hel.
  - apply flattenShapes_elem. by eauto.
  - apply IH. rewrite flattenShapes_cons, app_nil_r, Hg.
    apply flattenShapes_elem. by eauto.
Qed.

Lemma flattenShapes_fixed elements :
  Forall (λ el, is_group el = false) elements → flattenShapes elements = elements.
Proof.
  induction 1 as [|el rest Hel _ IH]; [done|].
  by rewrite flattenShapes_cons, Hel, IH.
Qed.

End FlattenMembers.

(** X1.  A node is in the output of [flattenShapes] exactly when it is
    not a group and the walk reaches it, that is, when it is an input
    node or a child of a group that the walk reaches.  What lies below a
    node that is not a group is never looked at. *)
Theorem flattenShapes_member (elements : list Element) (el : Element) :
  el ∈ flattenShapes elements ↔ reached elements el ∧ is_group el = false.
Proof.
  split.
  - intros (e & He & Hel)%flattenShapes_elem.
    destruct (flattenShapes_el_reached e el Hel) as [Hreach Hshape].
    split; [|done]. eapply reached_mono; [|exact Hreach].
    intros x ->%list_elem_of_singleton. by apply reached_input.
  - intros [Hreach Hshape]. eapply reached_flattenShapes; [exact Hreach|].
    rewrite flattenShapes_cons, Hshape. left.
Qed.

(** X2.  Flattening twice is flattening once, and a sequence without
    groups is returned as it is. *)
Theorem flattenShapes_idempotent (elements : list Element) :
  flattenShapes (flattenShapes elements) = flattenShapes elements
  ∧ (Forall (λ el, is_group el = false) elements →
     flattenShapes elements = elements).
Proof.
  split; [|apply flattenShapes_fixed].
  apply flattenShapes_fixed, flattenShapes_no_group.
Qed.

(** ** getShapeAttributes: when it raises, what it reads *)

Section ShapeEdges.

Implicit Types (element : Element) (s : string) (c : ascii).

Lemma lower_char_idem c : JS.lower_char (JS.lower_char c) = JS.lower_char c.
Proof. by destruct c as [[] [] [] [] [] [] [] []]. Qed.

Lemma toLowerCase_idem s : JS.toLowerCase (JS.toLowerCase s) = JS.toLowerCase s.
Proof.
  induction s as [|c s IH]; simpl; [done|]. by rewrite lower_char_idem, IH.
Qed.

(** Of the names of [Object.prototype], two are in lower case. *)
Lemma lower_prototype_key s :
  JS.toLowerCase s ∈ Object_prototype_keys ↔
  JS.toLowerCase s = "constructor" ∨ JS.toLowerCase s = "__proto__".
Proof.
  split.
  - intros Hin. pose proof (toLowerCase_idem s) as Hidem.
    revert Hin Hidem. generalize (JS.toLowerCase s). intros k Hin Hidem.
    unfold Object_prototype_keys in Hin.
    repeat (apply elem_of_cons in Hin as [->|Hin];
            [first [by left|by right|by vm_compute in Hidem]|]).
    by apply elem_of_nil in Hin.
  - intros [-> | ->]; apply (bool_decide_unpack _); exact I.
Qed.

Lemma reduce_ext {V : Type} (f g : string → V) (attrs : list string)
    (acc : gmap string V) :
  (∀ attr, attr ∈ attrs → f attr = g attr) →
  foldl (λ acc attr, <[attr := f attr]> acc) acc attrs
  = foldl (λ acc attr, <[attr := g attr]> acc) acc attrs.
Proof.
  revert acc. induction attrs as [|a attrs IH]; intros acc Hext; simpl; [done|].
  rewrite (Hext a) by left. apply IH. intros attr Hin. apply Hext. by right.
Qed.

End ShapeEdges.

(** X3.  [getShapeAttributes] raises exactly on the elements whose tag
    name is, letter case aside, [constructor] or [__proto__]; on every
    other element it returns. *)
Theorem getShapeAttributes_raises_exactly (element : Element) :
  (getShapeAttributes element = Throw TypeError
   ↔ JS.toLowerCase (tagName element) = "constructor"
     ∨ JS.toLowerCase (tagName element) = "__proto__")
  ∧ (JS.toLowerCase (tagName element) ≠ "constructor" →
     JS.toLowerCase (tagName element) ≠ "__proto__" →
     ∃ result, getShapeAttributes element = Return result).
Proof.
  assert (Hiff : getShapeAttributes element = Throw TypeError
                 ↔ JS.toLowerCase (tagName element) = "constructor"
                   ∨ JS.toLowerCase (tagName element) = "__proto__").
  { by rewrite getShapeAttributes_raises, lower_prototype_key. }
  split; [done|]. intros Hc Hp.
  destruct (getShapeAttributes element) as [result|[]]; [by eauto|].
  by destruct (proj1 Hiff eq_refl).
Qed.

(** X4.  What [getShapeAttributes] returns depends on the tag name, up
    to letter case, and on the attributes it reads for that tag only:
    [d] for a path, the attributes listed in the table for a shape,
    none for any other tag.  Two elements that agree on these give the
    same result, whatever their other attributes and their children. *)
Theorem getShapeAttributes_reads_listed (element1 element2 : Element) :
  JS.toLowerCase (tagName element1) = JS.toLowerCase (tagName element2) →
  (∀ attr,
     attr ∈ (if String.eqb (JS.toLowerCase (tagName element1)) "path"
             then ["d"]
             else default [] (attributesMap !! JS.toLowerCase (tagName element1))) →
     getAttribute element1 attr = getAttribute element2 attr) →
  getShapeAttributes element1 = getShapeAttributes element2.
Proof.
  intros Htag Hattrs. unfold getShapeAttributes, get_property.
  rewrite <- Htag.
  destruct (String.eqb _ "path"); [by rewrite (Hattrs "d") by left|].
  destruct (attributesMap !! JS.toLowerCase (tagName element1)) as [attrs|];
    simpl in *.
  - do 2 f_equal. apply reduce_ext. intros attr Hin.
    unfold resolve_attribute. by rewrite (Hattrs attr).
  - by destruct (bool_decide _).
Qed.

(** X5.  Two kinds of text pass the [isNaN] test of [getShapeAttributes]
    and are then read differently by [parseFloat]: for a listed attribute
    other than [points], text made of white space only (the empty text
    included) is stored as the number NaN, and text that passes the test
    with a radix prefix ([0x], [0o], [0b]) is stored as the number 0,
    whatever its digits. *)
Theorem getShapeAttributes_edge_numbers (element : Element)
    (attrs : list string) (attr value : string) :
  attributesMap !! JS.toLowerCase (tagName element) = Some attrs →
  attr ∈ attrs → attr ≠ "points" →
  getAttribute element attr = Some value →
  ∃ acc, getShapeAttributes element = Return (AttributeRecord acc)
    ∧ (all_ws value = true → acc !! attr = Some (ANumber Num.NaN))
    ∧ (∀ radix digits,
         Num.radix_of_prefix (JS.trim value) = Some (radix, digits) →
         Num.isNaN value = false →
         acc !! attr = Some (ANumber (Num.of_Z 0))).
Proof.
  intros Hlisted Hin Hpoints%String.eqb_neq Hvalue.
  destruct (getShapeAttributes_listed element attrs Hlisted) as (acc & Hret & _ & Hval).
  exists acc. split; [done|]. rewrite (Hval attr Hin).
  unfold resolve_attribute. rewrite Hvalue, Hpoints. split.
  - intros Hblank. unfold Num.isNaN, Num.Number, Num.parseFloat.
    by rewrite trim_blank, trimStart_all_ws.
  - intros radix digits Hradix Hnum. rewrite Hnum. do 2 f_equal.
    destruct (trim_decompose value) as (lead & trail & Hlead & Htrail & Hsplit).
    rewrite Hsplit, parseFloat_padding by done.
    destruct (JS.trim value) as [|a [|c r]]; [done| |].
    + by destruct a as [[] [] [] [] [] [] [] []].
    + assert (Ha : a = "0"%char).
      { by destruct a as [[] [] [] [] [] [] [] []]. }
      subst a. simpl in Hradix.
      assert (Hc : c ∈ ["x"; "X"; "o"; "O"; "b"; "B"]%char).
      { repeat match type of Hradix with
               | context [Ascii.eqb c ?k] =>
                   destruct (Ascii.eqb_spec c k) as [->|_];
                   [apply (bool_decide_unpack _); exact I|]
               end.
        done. }
      clear -Hc. unfold Num.parseFloat.
      repeat (apply elem_of_cons in Hc as [->|Hc]; [done|]).
      by apply elem_of_nil in Hc.
Qed.

(** ** parseGradient: outcomes and stops *)

(** X6.  [parseGradient] returns [null] exactly on an absent input and
    raises exactly on an element whose tag name, compared with letter
    case, is the name of a member of [Object.prototype]; on any other
    element it returns a record. *)
Theorem parseGradient_outcomes (gradient : option Element) :
  (parseGradient gradient = Return None ↔ gradient = None)
  ∧ (parseGradient gradient = Throw TypeError
     ↔ ∃ g, gradient = Some g ∧ tagName g ∈ Object_prototype_keys)
  ∧ (∀ g, gradient = Some g → tagName g ∉ Object_prototype_keys →
          ∃ r, parseGradient gradient = Return (Some r)).
Proof.
  destruct gradient as [g|].
  - rewrite parseGradient_Some. case_bool_decide as Hkey; split_and!.
    + by split.
    + split; [by eauto|done].
    + by intros ? [= <-].
    + by split.
    + split; [done|]. by intros (? & [= <-] & ?).
    + by eauto.
  - split_and!; [done| |done]. split; [done|]. by intros (? & ? & _).
Qed.

(** X7.  In a record returned by [parseGradient] there is one stop per
    [stop] element below the gradient, no stop has an empty colour, and
    every offset is the number 0 or a text that is not empty: an empty
    attribute counts as an absent one. *)
Theorem parseGradient_stops (gradient : Element) (r : GradientRecord) :
  parseGradient (Some gradient) = Return (Some r) →
  length (stops r) = length (getElementsByTagName gradient "stop")
  ∧ Forall (λ st, color st ≠ ""
                  ∧ (offset st = OffsetNumber (Num.of_Z 0)
                     ∨ ∃ text, offset st = OffsetString text ∧ text ≠ ""))
           (stops r).
Proof.
  rewrite parseGradient_Some. destruct (bool_decide _); [done|].
  intros [= <-]. simpl. split; [by rewrite length_map|].
  apply Forall_forall. intros st (stop & <- & _)%list_elem_of_In%in_map_iff.
  unfold parse_stop, attribute_or. simpl. split.
  - destruct (getAttribute stop "stop-color") as [v|]; [|done].
    by destruct (String.eqb_spec v "").
  - destruct (getAttribute stop "offset") as [v|]; [|by left].
    destruct (String.eqb_spec v ""); [by left|by eauto].
Qed.

(** ** parsePoints: shape of the result *)

Section PointsShape.

Lemma split_cons_inv sep s : ∃ p ps, JS.split sep s = p :: ps.
Proof.
  induction s as [|c s (p & ps & IH)]; simpl; [by eauto|].
  destruct (Ascii.eqb c sep); [by eauto|]. rewrite IH. simpl. by eauto.
Qed.

End PointsShape.

(** X8.  Whatever the text, [parsePoints] returns at least one row and
    no row is empty; white space before and after the text does not
    change the result. *)
Theorem parsePoints_rows (points : string) :
  parsePoints points ≠ []
  ∧ Forall (λ row, row ≠ []) (parsePoints points)
  ∧ (∀ lead trail,
       all_ws lead = true → all_ws trail = true →
       parsePoints (lead +:+ points +:+ trail) = parsePoints points).
Proof.
  unfold parsePoints. split_and!.
  - unfold JS.split_ws.
    by destruct (split_ws_from_cons_inv false (JS.trim points)) as (p & ps & ->).
  - apply Forall_forall. intros row (tok & <- & _)%list_elem_of_In%in_map_iff.
    by destruct (split_cons_inv "," tok) as (p & ps & ->).
  - intros lead trail Hlead Htrail. by rewrite trim_padding.
Qed.

(** ** getStyleAttributes: when it raises, what it keeps *)

Section StyleOutcomes.

Variables ownerDocument element : Element.

Implicit Types (styles : gmap string StyleValue) (attr k value : string).

Lemma style_step_raises styles attr :
  style_step ownerDocument element styles attr = Throw TypeError
  ↔ turn_raises ownerDocument element
      (bool_decide (is_Some (styles !! "hasOwnProperty"))) attr = true.
Proof.
  unfold style_step, turn_raises, usable, call_hasOwnProperty.
  destruct (getAttribute element attr) as [value|]; [|done].
  destruct (_ || _); cbn [negb andb orb]; [done|].
  destruct (JS.startsWith value "url(").
  - destruct (match_gradient_id value) as [gradientId|]; [|done].
    destruct (String.eqb gradientId ""); cbn [negb andb orb]; [done|].
    destruct (getElementById _ _) as [gradient|]; [|done].
    rewrite parseGradient_Some. by case_bool_decide.
  - destruct (styles !! "hasOwnProperty") as [v|]; simpl.
    + done.
    + done.
Qed.

Lemma forEach_raises (l : list string) styles :
  Forall (λ attr, attr ≠ "hasOwnProperty") l →
  forEach (style_step ownerDocument element) l styles = Throw TypeError
  ↔ ∃ attr, attr ∈ l
            ∧ turn_raises ownerDocument element
                (bool_decide (is_Some (styles !! "hasOwnProperty"))) attr = true.
Proof.
  intros Hl. revert styles.
  induction Hl as [|a l Ha _ IH]; intros styles; simpl.
  - split; [done|]. by intros (? & ?%elem_of_nil & _).
  - destruct (style_step ownerDocument element styles a) as [s1|[]] eqn:Hstep; simpl.
    + rewrite IH.
      rewrite (style_step_other _ _ _ _ _ "hasOwnProperty" Hstep) by done.
      split.
      * intros (attr & Hin & Hraise). exists attr. split; [by right|done].
      * intros (attr & [->|Hin]%elem_of_cons & Hraise); [|by eauto].
        apply style_step_raises in Hraise. congruence.
    + split; [|done]. intros _. exists a. split; [left|].
      by apply style_step_raises.
Qed.

Lemma turn_raises_spec (shadowed : bool) attr :
  turn_raises ownerDocument element shadowed attr = true
  ↔ ∃ value,
      getAttribute element attr = Some value ∧ value ≠ "" ∧ value ≠ "none"
      ∧ ((JS.startsWith value "url(" = false ∧ shadowed = true)
         ∨ (JS.startsWith value "url(" = true
            ∧ ∃ gradientId gradient,
                match_gradient_id value = Some gradientId ∧ gradientId ≠ ""
                ∧ getElementById ownerDocument gradientId = Some gradient
                ∧ tagName gradient ∈ Object_prototype_keys)).
Proof.
  unfold turn_raises, usable.
  destruct (getAttribute element attr) as [value|];
    [|by split; [|intros (? & ? & _)]].
  destruct (String.eqb_spec value "") as [->|Hne]; simpl.
  { split; [done|]. by intros (? & [= <-] & ? & _). }
  destruct (String.eqb_spec value "none") as [->|Hnone]; simpl.
  { split; [done|]. by intros (? & [= <-] & _ & ? & _). }
  destruct (JS.startsWith value "url(") eqn:Hurl.
  - split.
    + destruct (match_gradient_id value) as [gradientId|] eqn:Hid; [|done].
      destruct (String.eqb_spec gradientId ""); simpl; [done|].
      destruct (getElementById _ _) as [gradient|] eqn:Hfound; [|done].
      intros Hkey%bool_decide_eq_true.
      exists value. split_and!; [done..|]. right. split; [done|].
      by exists gradientId, gradient.
    + intros (? & [= <-] & _ & _ & [[? _]|[_ Hcase]]); [congruence|].
      destruct Hcase as (gradientId & gradient & -> & Hid & -> & Hkey).
      apply String.eqb_neq in Hid. rewrite Hid. simpl.
      by apply bool_decide_eq_true.
  - split.
    + intros ->. exists value. split_and!; [done..|]. by left.
    + intros (? & [= <-] & _ & _ & [[_ ?]|[? _]]); [done|congruence].
Qed.

(** What a turn of the loop does to the entry of its attribute. *)
Lemma style_step_entry styles styles' attr :
  style_step ownerDocument element styles attr = Return styles' →
  (is_Some (styles !! attr) → is_Some (styles' !! attr))
  ∧ (is_Some (styles' !! attr) →
     is_Some (styles !! attr)
     ∨ ∃ value, getAttribute element attr = Some value ∧ usable value = true)
  ∧ (getAttribute element attr = None
     ∨ getAttribute element attr = Some ""
     ∨ getAttribute element attr = Some "none" →
     styles' = styles).
Proof.
  unfold style_step, usable. intros Hstep.
  destruct (getAttribute element attr) as [value|].
  2:{ injection Hstep as <-. by split_and!; [|left|]. }
  destruct (String.eqb value "" || String.eqb value "none") eqn:Huse.
  { injection Hstep as <-. by split_and!; [|left|]. }
  assert (Hskip : ¬ (Some value = None ∨ Some value = Some "" ∨ Some value = Some "none")).
  { apply orb_false_iff in Huse as [Hne%String.eqb_neq Hnone%String.eqb_neq].
    intros [?|[[= ?]|[= ?]]]; done. }
  assert (Hwrite : ∀ v, is_Some (<[attr := v]> styles !! attr)).
  { intros v. rewrite lookup_insert_eq. by eauto. }
  assert (Hcases : styles' = styles ∨ ∃ v, styles' = <[attr := v]> styles).
  { destruct (JS.startsWith value "url(").
    - destruct (match_gradient_id value) as [gradientId|]; [|left; congruence].
      destruct (String.eqb gradientId ""); [left; congruence|].
      destruct (getElementById _ _) as [gradient|]; [|left; congruence].
      apply bind_Return in Hstep as (g & _ & [= <-]). by eauto.
    - apply bind_Return in Hstep as (present & _ & [= <-]).
      destruct present; by eauto. }
  destruct Hcases as [->|[v ->]]; split_and!; try done.
  - by left.
  - intros _. right. exists value. by rewrite Huse.
Qed.

End StyleOutcomes.

(** X9.  [getStyleAttributes] raises exactly when some allow-listed
    attribute has a value that is neither empty nor [none] and either
    the value does not start with [url(] while the inline style declares
    a property named [hasOwnProperty], or the value starts with [url(],
    the captured id is not empty and the element it resolves to has a
    tag named like a member of [Object.prototype].  In every other case
    the call returns a record. *)
Theorem getStyleAttributes_raises_exactly (ownerDocument element : Element) :
  (getStyleAttributes ownerDocument element = Throw TypeError
   ↔ ∃ attr value,
       attr ∈ style_attributes
       ∧ getAttribute element attr = Some value ∧ value ≠ "" ∧ value ≠ "none"
       ∧ ((JS.startsWith value "url(" = false
           ∧ is_Some (inline_styles element !! "hasOwnProperty"))
          ∨ (JS.startsWith value "url(" = true
             ∧ ∃ gradientId gradient,
                 match_gradient_id value = Some gradientId ∧ gradientId ≠ ""
                 ∧ getElementById ownerDocument gradientId = Some gradient
                 ∧ tagName gradient ∈ Object_prototype_keys)))
  ∧ (getStyleAttributes ownerDocument element ≠ Throw TypeError
     ↔ ∃ styles, getStyleAttributes ownerDocument element = Return styles).
Proof.
  split.
  - unfold getStyleAttributes. rewrite forEach_raises by (by repeat constructor).
    split.
    + intros (attr & Hin & (value & Hattr & Hne & Hnone & Hcase)%turn_raises_spec).
      exists attr, value. split_and!; [done..|].
      destruct Hcase as [[Hplain Hshadow%bool_decide_eq_true]|Hurl]; [by left|by right].
    + intros (attr & value & Hin & Hattr & Hne & Hnone & Hcase).
      exists attr. split; [done|]. apply turn_raises_spec.
      exists value. split_and!; [done..|].
      destruct Hcase as [[Hplain Hshadow]|Hurl]; [left|by right].
      split; [done|]. by apply bool_decide_eq_true.
  - destruct (getStyleAttributes ownerDocument element) as [styles|[]].
    + split; [by eauto|done].
    + split; [done|]. by intros [? ?].
Qed.

(** X10.  When [getStyleAttributes] returns, every property of the
    inline style is still in the record; an allow-listed attribute that
    is absent, empty or [none] leaves its entry as the inline pass left
    it; and a property is in the record only if the inline style declared
    it or it is an allow-listed attribute with a value that is neither
    empty nor [none]. *)
Theorem getStyleAttributes_keeps (ownerDocument element : Element)
    (styles : gmap string StyleValue) :
  getStyleAttributes ownerDocument element = Return styles →
  (∀ k, is_Some (inline_styles element !! k) → is_Some (styles !! k))
  ∧ (∀ attr, attr ∈ style_attributes →
       getAttribute element attr = None
       ∨ getAttribute element attr = Some ""
       ∨ getAttribute element attr = Some "none" →
       styles !! attr = inline_styles element !! attr)
  ∧ (∀ k, is_Some (styles !! k) →
       is_Some (inline_styles element !! k)
       ∨ (k ∈ style_attributes
          ∧ ∃ value, getAttribute element k = Some value
                     ∧ value ≠ "" ∧ value ≠ "none")).
Proof.
  intros Hret.
  assert (Hat : ∀ k, k ∈ style_attributes →
            ∃ before after,
              style_step ownerDocument element before k = Return after
              ∧ before !! k = inline_styles element !! k
              ∧ styles !! k = after !! k).
  { intros k Hin. by apply getStyleAttributes_at. }
  assert (Hout : ∀ k, k ∉ style_attributes → styles !! k = inline_styles element !! k).
  { intros k Hk. by eapply forEach_other. }
  split_and!.
  - intros k Hk. destruct (decide (k ∈ style_attributes)) as [Hin|Hnin].
    + destruct (Hat k Hin) as (before & after & Hstep & Hbefore & ->).
      apply (style_step_entry _ _ _ _ _ Hstep). by rewrite Hbefore.
    + by rewrite Hout.
  - intros attr Hin Hskip.
    destruct (Hat attr Hin) as (before & after & Hstep & Hbefore & ->).
    destruct (style_step_entry _ _ _ _ _ Hstep) as (_ & _ & Hsame).
    by rewrite (Hsame Hskip).
  - intros k Hk. destruct (decide (k ∈ style_attributes)) as [Hin|Hnin].
    + destruct (Hat k Hin) as (before & after & Hstep & Hbefore & Hafter).
      destruct (style_step_entry _ _ _ _ _ Hstep) as (_ & Hnew & _).
      rewrite Hafter in Hk. destruct (Hnew Hk) as [Hold|(value & Hattr & Huse)].
      * left. by rewrite <- Hbefore.
      * right. split; [done|]. exists value. unfold usable in Huse.
        apply negb_true_iff, orb_false_iff in Huse as [?%String.eqb_neq ?%String.eqb_neq].
        done.
    + left. by rewrite <- Hout.
Qed.

(** ** The inline pass on well-formed style text *)

Section InlineText.

Implicit Types (s a b p v : string) (c sep : ascii)
  (decls : list (string * string)) (entries : list (list string)).

Lemma count_char_app sep a b :
  count_char sep (a +:+ b) = count_char sep a + count_char sep b.
Proof. induction a as [|c a IH]; simpl; [done|]. rewrite IH. lia. Qed.

(** Cutting at a separator cuts what is before it and what is after it. *)
Lemma split_app sep a b :
  JS.split sep (a +:+ String sep b) = JS.split sep a ++ JS.split sep b.
Proof.
  induction a as [|c a IH]; simpl.
  - by rewrite Ascii.eqb_refl.
  - destruct (Ascii.eqb c sep); [by rewrite IH|].
    rewrite IH. by destruct (split_cons_inv sep a) as (q & qs & ->).
Qed.

Lemma trimEnd_idem s : JS.trimEnd (JS.trimEnd s) = JS.trimEnd s.
Proof.
  induction s as [|c s IH]; simpl; [done|].
  destruct (JS.trimEnd s) as [|c' r] eqn:Hend.
  - destruct (JS.is_ws c) eqn:Hc; simpl; [done|]. by rewrite Hc.
  - simpl in *. by rewrite IH.
Qed.

Lemma trim_idem s : JS.trim (JS.trim s) = JS.trim s.
Proof.
  unfold JS.trim at 1. rewrite trimStart_trim. unfold JS.trim.
  apply trimEnd_idem.
Qed.

Lemma segment_split d :
  plain_text d.1 = true → plain_text d.2 = true →
  JS.split ";" (segment d) = [segment d]
  ∧ JS.split ":" (segment d) = [d.1; d.2]
  ∧ segment d ≠ "".
Proof.
  unfold plain_text, segment.
  intros [Hp1%Nat.eqb_eq Hp2%Nat.eqb_eq]%andb_true_iff
         [Hv1%Nat.eqb_eq Hv2%Nat.eqb_eq]%andb_true_iff.
  split_and!.
  - apply split_no_sep. rewrite !count_char_app. simpl. lia.
  - change (d.1 +:+ ":" +:+ d.2) with (d.1 +:+ String ":" d.2).
    by rewrite split_app, !split_no_sep.
  - by destruct d.1.
Qed.

Lemma style_text_cons d decls :
  decls ≠ [] →
  style_text (d :: decls) = segment d +:+ String ";" (style_text decls).
Proof.
  destruct decls as [|d' decls]; [done|]. intros _. destruct d as [p v].
  unfold segment. simpl. by rewrite !string_app_assoc.
Qed.

Lemma style_text_split decls :
  Forall (λ d, plain_text d.1 = true ∧ plain_text d.2 = true) decls →
  decls ≠ [] →
  JS.split ";" (style_text decls) = map segment decls.
Proof.
  induction 1 as [|d decls [Hp Hv] _ IH]; [done|]. intros _.
  destruct (segment_split d Hp Hv) as (Hsemi & _ & _).
  destruct decls as [|d' decls].
  - destruct d as [p v]. exact Hsemi.
  - rewrite style_text_cons by done. rewrite split_app, Hsemi, IH by done.
    done.
Qed.

Lemma filter_segments decls :
  Forall (λ d, plain_text d.1 = true ∧ plain_text d.2 = true) decls →
  filter (λ s, s ≠ "") (map segment decls) = map segment decls.
Proof.
  induction 1 as [|d decls [Hp Hv] _ IH]; [done|]. simpl.
  destruct (segment_split d Hp Hv) as (_ & _ & Hne).
  by rewrite filter_cons_True, IH.
Qed.

Lemma inline_entries_style_text decls (tail : string) :
  Forall (λ d, plain_text d.1 = true ∧ plain_text d.2 = true) decls →
  tail = "" ∨ tail = ";" →
  inline_entries (style_text decls +:+ tail)
  = map (λ d, [JS.trim d.1; JS.trim d.2]) decls.
Proof.
  intros Hdecls Htail. unfold inline_entries.
  assert (Hsegs : filter (λ s, s ≠ "") (JS.split ";" (style_text decls +:+ tail))
                  = map segment decls).
  { destruct decls as [|d decls].
    - by destruct Htail as [-> | ->].
    - destruct Htail as [-> | ->].
      + rewrite string_app_nil_r, style_text_split by done.
        by apply filter_segments.
      + rewrite split_app, style_text_split by done. simpl JS.split.
        rewrite filter_app, filter_segments by done.
        by rewrite app_nil_r. }
  rewrite Hsegs. clear Hsegs.
  induction Hdecls as [|d decls [Hp Hv] _ IH]; [done|]. simpl.
  destruct (segment_split d Hp Hv) as (_ & -> & _). by rewrite IH.
Qed.

Lemma fromEntries_pairs decls :
  fromEntries (map (λ d, [JS.trim d.1; JS.trim d.2]) decls) = declared decls.
Proof.
  unfold fromEntries, declared. generalize (∅ : gmap string StyleValue).
  induction decls as [|d decls IH]; intros acc; simpl; [done|]. apply IH.
Qed.

Lemma fromEntries_lookup entries k x :
  fromEntries entries !! k = Some x →
  ∃ entry, entry ∈ entries
           ∧ k = default "undefined" (entry !! 0%nat)
           ∧ x = from_option SString SUndefined (entry !! 1%nat).
Proof.
  induction entries as [|entry entries IH] using rev_ind; [done|].
  rewrite fromEntries_snoc.
  destruct (decide (default "undefined" (entry !! 0%nat) = k)) as [Hk|Hk].
  - rewrite Hk, lookup_insert_eq. intros [= <-].
    exists entry. split_and!; [|done..]. apply elem_of_app. right. left.
  - rewrite lookup_insert_ne by done. intros (e & He & ?)%IH.
    exists e. split; [|done]. apply elem_of_app. by left.
Qed.

Lemma inline_entries_trimmed (text : string) :
  Forall (Forall (λ x, JS.trim x = x)) (inline_entries text).
Proof.
  unfold inline_entries. apply Forall_forall.
  intros entry (seg & <- & _)%list_elem_of_In%in_map_iff.
  apply Forall_forall. intros x (piece & <- & _)%list_elem_of_In%in_map_iff.
  apply trim_idem.
Qed.

End InlineText.

(** X11.  Style text made of declarations [p:v] separated by semicolons,
    with or without a semicolon at the end, where no [p] and no [v]
    holds a colon or a semicolon, is read back as those declarations:
    the inline pass gives the record that maps every trimmed [p] to its
    trimmed [v], a later declaration replacing an earlier one of the same
    property, except that a declaration of [__proto__] is dropped. *)
Theorem inline_styles_declarations (element : Element)
    (decls : list (string * string)) :
  Forall (λ d, plain_text d.1 = true ∧ plain_text d.2 = true) decls →
  getAttribute element "style" = Some (style_text decls)
  ∨ getAttribute element "style" = Some (style_text decls +:+ ";") →
  inline_styles element = delete "__proto__" (declared decls)
  ∧ (∀ d, declared (decls ++ [d])
          = <[JS.trim d.1 := SString (JS.trim d.2)]> (declared decls)).
Proof.
  intros Hdecls Hstyle. split; [|intros d; unfold declared; by rewrite foldl_app].
  unfold inline_styles, Object_assign.
  assert (Hread : ∀ tail, tail = "" ∨ tail = ";" →
            fromEntries (inline_entries (style_text decls +:+ tail)) = declared decls).
  { intros tail Htail. by rewrite inline_entries_style_text, fromEntries_pairs. }
  destruct Hstyle as [-> | ->].
  - destruct (String.eqb_spec (style_text decls) "") as [Hempty|_].
    + destruct decls as [|[p v] [|d decls]]; [done|by destruct p|].
      simpl in Hempty. by destruct p.
    + rewrite <- (string_app_nil_r (style_text decls)), Hread by (by left).
      by rewrite map_union_empty.
  - destruct (String.eqb_spec (style_text decls +:+ ";") "") as [Hempty|_].
    + by destruct (style_text decls).
    + rewrite Hread by (by right). by rewrite map_union_empty.
Qed.

(** X12.  Whatever the style text, the record of the inline pass has no
    property named [__proto__], its property names carry no white space
    at either end, and its values are texts without white space at
    either end, or [undefined] for a segment without a colon. *)
Theorem inline_styles_entries (element : Element) (k : string) (x : StyleValue) :
  inline_styles element !! k = Some x →
  k ≠ "__proto__"
  ∧ JS.trim k = k
  ∧ (x = SUndefined ∨ ∃ text, x = SString text ∧ JS.trim text = text).
Proof.
  unfold inline_styles, Object_assign.
  destruct (getAttribute element "style") as [inlineStyle|]; [|done].
  destruct (String.eqb inlineStyle ""); [done|].
  rewrite map_union_empty. intros [Hk Hlook]%lookup_delete_Some.
  split; [done|].
  apply fromEntries_lookup in Hlook as (entry & Hentry & -> & ->).
  pose proof (inline_entries_trimmed inlineStyle) as Htrim.
  rewrite Forall_forall in Htrim. specialize (Htrim entry Hentry).
  rewrite Forall_forall in Htrim. split.
  - destruct (entry !! 0%nat) as [key|] eqn:Hkey; simpl; [|by vm_compute].
    apply Htrim. by eapply list_elem_of_lookup_2.
  - destruct (entry !! 1%nat) as [text|] eqn:Htext; simpl; [|by left].
    right. exists text. split; [done|]. apply Htrim.
    by eapply list_elem_of_lookup_2.
Qed.

(** ** parsePoints: a coordinate that is not written *)

Section MissingCoordinate.

Implicit Types (s t tok : string).

Lemma no_ws_app s t : no_ws (s +:+ t) = no_ws s && no_ws t.
Proof.
  induction s as [|c s IH]; simpl; [done|]. by rewrite IH, andb_assoc.
Qed.

(** A single token gives a single row. *)
Lemma parsePoints_token tok :
  is_token tok = true →
  parsePoints tok = [map Num.Number (JS.split "," tok)].
Proof.
  intros Htok. unfold parsePoints, JS.split_ws.
  pose proof (trim_join "" "" tok [] eq_refl eq_refl Htok (List.Forall_nil _)) as Htrim.
  simpl in Htrim. rewrite string_app_nil_r in Htrim. rewrite Htrim.
  pose proof (split_ws_from_join false tok [] Htok (List.Forall_nil _)) as Hsplit.
  simpl in Hsplit. by rewrite Hsplit.
Qed.

End MissingCoordinate.

(** X13.  A comma with nothing before it or nothing after it stands for
    the coordinate 0, not for NaN and not for a shorter row: for a token
    [tok], the text [tok,] gives the row of [tok] followed by 0 and the
    text [,tok] gives 0 followed by the row of [tok]. *)
Theorem parsePoints_missing_coordinate (tok : string) :
  is_token tok = true →
  parsePoints (tok +:+ ",")
  = [map Num.Number (JS.split "," tok) ++ [Num.of_Z 0]]
  ∧ parsePoints ("," +:+ tok)
    = [Num.of_Z 0 :: map Num.Number (JS.split "," tok)].
Proof.
  intros Htok.
  assert (Hparts : no_ws tok = true ∧ tok ≠ "").
  { unfold is_token in Htok. apply andb_true_iff in Htok as [Hne ?].
    split; [done|]. intros ->. done. }
  destruct Hparts as [Hws Hne]. split.
  - rewrite parsePoints_token.
    + change (tok +:+ ",") with (tok +:+ String "," "").
      by rewrite split_app, map_app.
    + unfold is_token. rewrite no_ws_app, Hws.
      by destruct tok.
  - rewrite parsePoints_token; [done|].
    unfold is_token. simpl. by rewrite Hws.
Qed.

(** ** The further statements at the sample document *)

Lemma flattenShapes_idempotent_witness :
  flattenShapes [sample_circle; sample_rect] = [sample_circle; sample_rect].
Proof.
  destruct (flattenShapes_idempotent [sample_circle; sample_rect]) as [_ Hfixed].
  apply Hfixed. repeat constructor.
Defined.

Lemma getShapeAttributes_raises_exactly_witness :
  ∃ result, getShapeAttributes sample_circle = Return result.
Proof.
  destruct (getShapeAttributes_raises_exactly sample_circle) as [_ Hreturns].
  apply Hreturns; discriminate.
Defined.

Lemma getShapeAttributes_reads_listed_witness :
  getShapeAttributes
    (mkElement "CIRCLE"
       {[ "cx" := "5"; "cy" := "10"; "r" := "2.5"; "fill" := "red"; "d" := "M0 0" ]}
       [sample_rect])
  = getShapeAttributes sample_circle
  ∧ getShapeAttributes (mkElement "Path" {[ "d" := "M0 0"; "cx" := "1" ]} [sample_rect])
    = getShapeAttributes (mkElement "path" {[ "d" := "M0 0" ]} []).
Proof.
  split.
  - apply getShapeAttributes_reads_listed; [reflexivity|].
    intros attr Hin.
    repeat (apply elem_of_cons in Hin as [->|Hin]; [reflexivity|]).
    by apply elem_of_nil in Hin.
  - apply getShapeAttributes_reads_listed; [reflexivity|].
    intros attr Hin.
    repeat (apply elem_of_cons in Hin as [->|Hin]; [reflexivity|]).
    by apply elem_of_nil in Hin.
Defined.

Lemma getShapeAttributes_edge_numbers_witness :
  ∃ acc,
    getShapeAttributes
      (mkElement "rect" {[ "x" := "  "; "width" := "0x10" ]} [])
    = Return (AttributeRecord acc)
    ∧ acc !! "x" = Some (ANumber Num.NaN)
    ∧ acc !! "width" = Some (ANumber (Num.of_Z 0))
    ∧ Num.Number "0x10" = Num.of_Z 16.
Proof.
  pose (element := mkElement "rect" {[ "x" := "  "; "width" := "0x10" ]} []).
  destruct (getShapeAttributes_edge_numbers element
              ["x"; "y"; "width"; "height"; "rx"; "ry"] "x" "  ")
    as (acc & Hret & Hblank & _);
    [reflexivity|apply (bool_decide_unpack _); exact I|discriminate|reflexivity|].
  destruct (getShapeAttributes_edge_numbers element
              ["x"; "y"; "width"; "height"; "rx"; "ry"] "width" "0x10")
    as (acc' & Hret' & _ & Hradix);
    [reflexivity|apply (bool_decide_unpack _); exact I|discriminate|reflexivity|].
  assert (Hsame : acc' = acc).
  { rewrite Hret in Hret'. by injection Hret'. }
  exists acc. split; [exact Hret|]. split; [apply Hblank; reflexivity|].
  split; [|reflexivity]. rewrite <- Hsame.
  apply (Hradix 16%N "10"); reflexivity.
Defined.

Lemma parseGradient_outcomes_witness :
  ∃ r, parseGradient (Some sample_gradient) = Return (Some r).
Proof.
  destruct (parseGradient_outcomes (Some sample_gradient)) as (_ & _ & Hreturns).
  apply (Hreturns sample_gradient); [reflexivity|].
  intros Hin. apply (bool_decide_eq_true_2 _) in Hin. discriminate Hin.
Defined.

Lemma parseGradient_stops_witness :
  ∃ r, parseGradient (Some sample_gradient) = Return (Some r)
       ∧ length (stops r) = 2.
Proof.
  pose (r := match parseGradient (Some sample_gradient) with
             | Return (Some r) => r
             | _ => mkGradient "" ∅ []
             end).
  assert (Hret : parseGradient (Some sample_gradient) = Return (Some r))
    by (vm_compute; reflexivity).
  exists r. split; [exact Hret|].
  destruct (parseGradient_stops sample_gradient r Hret) as [Hlen _].
  rewrite Hlen. reflexivity.
Defined.

Lemma parsePoints_rows_witness :
  parsePoints "  1,2 3,4  " = parsePoints "1,2 3,4".
Proof.
  destruct (parsePoints_rows "1,2 3,4") as (_ & _ & Hpad).
  apply (Hpad "  " "  "); reflexivity.
Defined.

Lemma getStyleAttributes_keeps_witness :
  ∃ styles,
    getStyleAttributes sample_document sample_rect = Return styles
    ∧ is_Some (styles !! "stroke")
    ∧ styles !! "transform" = None.
Proof.
  pose (styles := match getStyleAttributes sample_document sample_rect with
                  | Return s => s
                  | Throw _ => ∅
                  end).
  assert (Hret : getStyleAttributes sample_document sample_rect = Return styles)
    by (vm_compute; reflexivity).
  destruct (getStyleAttributes_keeps sample_document sample_rect styles Hret)
    as (Hkept & Hskip & _).
  exists styles. split; [exact Hret|]. split.
  - apply Hkept. exists (SString "blue"). reflexivity.
  - rewrite (Hskip "transform"); [reflexivity| |left; reflexivity].
    apply (bool_decide_unpack _). exact I.
Defined.

Lemma inline_styles_declarations_witness :
  inline_styles
    (mkElement "rect" {[ "style" := " fill : red ;stroke:blue;fill:green;" ]} [])
  = {[ "fill" := SString "green"; "stroke" := SString "blue" ]}.
Proof.
  destruct (inline_styles_declarations
              (mkElement "rect" {[ "style" := " fill : red ;stroke:blue;fill:green;" ]} [])
              [(" fill ", " red "); ("stroke", "blue"); ("fill", "green")])
    as [Hread _].
  - repeat constructor.
  - right. reflexivity.
  - rewrite Hread. vm_compute. reflexivity.
Defined.

Lemma inline_styles_entries_witness :
  inline_styles sample_rect !! "fill" = Some (SString "red")
  ∧ "fill" ≠ "__proto__" ∧ JS.trim "fill" = "fill".
Proof.
  split; [reflexivity|].
  destruct (inline_styles_entries sample_rect "fill" (SString "red"))
    as (Hname & Htrim & _); [reflexivity|].
  split; [exact Hname|exact Htrim].
Defined.

Lemma parsePoints_missing_coordinate_witness :
  parsePoints "10,20," = [[Num.of_Z 10; Num.of_Z 20; Num.of_Z 0]]
  ∧ parsePoints ",5" = [[Num.of_Z 0; Num.of_Z 5]].
Proof.
  destruct (parsePoints_missing_coordinate "10,20") as [Hafter _]; [reflexivity|].
  destruct (parsePoints_missing_coordinate "5") as [_ Hbefore]; [reflexivity|].
  split; [exact Hafter|exact Hbefore].
Defined.

(** ** getStyleAttributes: the id of a reference *)

Section ReferenceId.

Implicit Types (s id rest : string).

Lemma to_last_paren_none rest :
  count_char ")" rest = 0 → to_last_paren rest = None.
Proof.
  induction rest as [|c rest IH]; simpl; [done|].
  destruct (Ascii.eqb c ")"); [done|]. intros Hrest.
  rewrite (IH Hrest). by destruct (JS.is_line_terminator c).
Qed.

(** The capture ends at the last closing parenthesis: text after the
    reference that holds no closing parenthesis is left out of it. *)
Lemma to_last_paren_reference s rest :
  no_line_terminator s = true → count_char ")" rest = 0 →
  to_last_paren (s +:+ String ")" rest) = Some s.
Proof.
  intros Hs Hrest. induction s as [|c s IH]; simpl in *.
  - by rewrite to_last_paren_none.
  - apply andb_true_iff in Hs as [Hc%negb_true_iff Hs]. by rewrite Hc, IH.
Qed.

Lemma match_gradient_id_reference id rest :
  no_line_terminator id = true → count_char ")" rest = 0 →
  match_gradient_id ("url(#" +:+ id +:+ ")" +:+ rest) = Some id.
Proof. intros Hid Hrest. simpl. by rewrite to_last_paren_reference. Qed.

End ReferenceId.

(** C1.  A reference followed by a fallback colour written with
    parentheses is not resolved.  The sample document has a gradient
    with the id [g1].  For [fill="url(#g1)"] and for
    [fill="url(#g1) red"] the parsed gradient is stored under [fill];
    for [fill="url(#g1) rgb(255,0,0)"] the pattern captures everything up
    to the last closing parenthesis, no element has that id, and nothing
    is stored although [g1] resolves. *)
Theorem getStyleAttributes_fallback_paint :
  let element := mkElement "rect" {[ "fill" := "url(#g1) rgb(255,0,0)" ]} [] in
  getElementById sample_document "g1" = Some sample_gradient
  ∧ JS.startsWith "url(#g1) rgb(255,0,0)" "url(" = true
  ∧ match_gradient_id "url(#g1) rgb(255,0,0)" = Some "g1) rgb(255,0,0"
  ∧ getElementById sample_document "g1) rgb(255,0,0" = None
  ∧ getStyleAttributes sample_document element = Return ∅
  ∧ (∃ r, parseGradient (Some sample_gradient) = Return (Some r)
          ∧ getStyleAttributes sample_document
              (mkElement "rect" {[ "fill" := "url(#g1)" ]} [])
            = Return {[ "fill" := SGradient r ]}
          ∧ getStyleAttributes sample_document
              (mkElement "rect" {[ "fill" := "url(#g1) red" ]} [])
            = Return {[ "fill" := SGradient r ]}).
Proof.
  split_and!; try (vm_compute; reflexivity).
  eexists. split_and!; vm_compute; reflexivity.
Qed.

(** X14.  Let the call return the record [styles], and let an
    allow-listed attribute have a value made of [url(#id)] and of text
    that holds no closing parenthesis (nothing, or a fallback such as
    [red]), [id] being free of line terminators.  If [id] is not empty
    and the owning document has an element with that id, [styles] holds
    under the attribute name the gradient record parsed from that
    element, whatever the inline style had put there.  If [id] is empty
    or no element has that id, [styles] holds there what the inline pass
    left. *)
Theorem getStyleAttributes_reference (ownerDocument element : Element)
    (styles : gmap string StyleValue) (attr id rest : string) :
  getStyleAttributes ownerDocument element = Return styles →
  attr ∈ style_attributes →
  getAttribute element attr = Some ("url(#" +:+ id +:+ ")" +:+ rest) →
  no_line_terminator id = true →
  count_char ")" rest = 0 →
  (∀ gradient,
     id ≠ "" → getElementById ownerDocument id = Some gradient →
     ∃ r, parseGradient (Some gradient) = Return (Some r)
          ∧ styles !! attr = Some (SGradient r))
  ∧ (id = "" ∨ getElementById ownerDocument id = None →
     styles !! attr = inline_styles element !! attr).
Proof.
  intros Hret Hin Hattr Hid Hrest.
  pose proof (match_gradient_id_reference id rest Hid Hrest) as Hcapture.
  destruct getStyleAttributes_gradient as [Hloop _].
  destruct (Hloop ownerDocument element styles attr _ Hret Hin Hattr eq_refl)
    as [Hfound Hmissing].
  split.
  - intros gradient Hne Hlookup. by apply (Hfound id gradient).
  - intros [-> |Hnone]; apply Hmissing.
    + right. by left.
    + right. right. by exists id.
Qed.

Lemma getStyleAttributes_reference_witness :
  ∃ styles r,
    getStyleAttributes sample_document
      (mkElement "rect"
         {[ "style" := "fill:red;stroke:blue";
            "fill" := "url(#g1) red"; "stroke" := "url(#g2)" ]} [])
    = Return styles
    ∧ parseGradient (Some sample_gradient) = Return (Some r)
    ∧ styles !! "fill" = Some (SGradient r)
    ∧ styles !! "stroke" = Some (SString "blue").
Proof.
  pose (element := mkElement "rect"
         {[ "style" := "fill:red;stroke:blue";
            "fill" := "url(#g1) red"; "stroke" := "url(#g2)" ]} []).
  pose (styles := match getStyleAttributes sample_document element with
                  | Return s => s
                  | Throw _ => ∅
                  end).
  assert (Hret : getStyleAttributes sample_document element = Return styles)
    by (vm_compute; reflexivity).
  destruct (getStyleAttributes_reference sample_document element styles
              "fill" "g1" " red" Hret) as [Hfound _];
    [apply (bool_decide_unpack _); exact I|reflexivity..|].
  destruct (getStyleAttributes_reference sample_document element styles
              "stroke" "g2" "" Hret) as [_ Hmissing];
    [apply (bool_decide_unpack _); exact I|reflexivity..|].
  destruct (Hfound sample_gradient) as (r & Hparse & Hfill);
    [discriminate|reflexivity|].
  exists styles, r. split; [exact Hret|]. split; [exact Hparse|].
  split; [exact Hfill|].
  rewrite Hmissing; [reflexivity|]. right. reflexivity.
Defined.
